(** * PubMed author e-mail extractor: a shallow embedding of [app.py]

    The development follows the source file top to bottom:

    - [PyStr]   : the Python [str] operations the program uses
                  ([lower], [strip], [in], truthiness);
    - [Re]      : the backtracking matcher behind [re.findall] and the
                  e-mail pattern of the program;
    - [PySet]   : the Python [set] of strings, as used for the e-mail sets;
    - [ET]      : the fragment of [xml.etree.ElementTree] the program uses
                  ([find] and [findall] with a [.//Tag] path, [.text]);
    - [App]     : [is_keyword_related], [fetch_article_details] and
                  [remove_duplicates].

    Strings are sequences of code points below 256 (type [ascii]); the
    character tables of [PyStr] and [Re] are those of CPython restricted to
    that range. *)

From Stdlib Require Import Ascii String.
From Stdlib Require Import List Bool Arith Lia NArith.
Import ListNotations.
Open Scope string_scope.
Open Scope list_scope.

Set Implicit Arguments.

(** ** Python strings *)

Module PyStr.

Definition str := list ascii.

Definition of_string (s : string) : str := list_ascii_of_string s.
Coercion of_string : string >-> str.

Definition code (c : ascii) : N := N_of_ascii c.

Definition between (lo hi c : ascii) : bool :=
  ((code lo <=? code c) && (code c <=? code hi))%N.

Definition is_upper_az (c : ascii) : bool := between "A" "Z" c.
Definition is_lower_az (c : ascii) : bool := between "a" "z" c.
Definition is_digit09 (c : ascii) : bool := between "0" "9" c.

Definition str_eqb (a b : str) : bool :=
  if list_eq_dec ascii_dec a b then true else false.

(** [bool(s)] for a string: the empty string is falsy. *)
Definition truthy (s : str) : bool :=
  match s with [] => false | _ :: _ => true end.

(** [bool(x)] for [x] of type [Optional[str]]: [None] and [''] are falsy. *)
Definition truthy_opt (x : option str) : bool :=
  match x with None => false | Some s => truthy s end.

(** [str.isspace] on one code point below 256: TAB, LF, VT, FF, CR,
    FS, GS, RS, US, SPACE, NEL (0x85) and NBSP (0xA0). *)
Definition isspace (c : ascii) : bool :=
  let n := code c in
  ((9 <=? n) && (n <=? 13) || (28 <=? n) && (n <=? 32)
   || (n =? 133) || (n =? 160))%N.

(** [str.lower] on one code point below 256: [A-Z] and the Latin-1 capitals
    0xC0..0xDE (the multiplication sign 0xD7 apart) move up by 32. *)
Definition lower_char (c : ascii) : ascii :=
  let n := code c in
  if ((65 <=? n) && (n <=? 90)
      || (192 <=? n) && (n <=? 222) && negb (n =? 215))%N
  then ascii_of_N (n + 32) else c.

Definition lower (s : str) : str := map lower_char s.

Fixpoint lstrip (s : str) : str :=
  match s with
  | c :: s' => if isspace c then lstrip s' else s
  | [] => []
  end.

Definition rstrip (s : str) : str := rev (lstrip (rev s)).

(** [s.strip()] *)
Definition strip (s : str) : str := rstrip (lstrip s).

Fixpoint startswith (s prefix : str) : bool :=
  match prefix, s with
  | [], _ => true
  | p :: prefix', c :: s' => Ascii.eqb p c && startswith s' prefix'
  | _ :: _, [] => false
  end.

(** [needle in hay] *)
Fixpoint contains (hay needle : str) : bool :=
  startswith hay needle
  || match hay with
     | [] => false
     | _ :: hay' => contains hay' needle
     end.

End PyStr.
Import PyStr.

(** ** The matcher of [re.findall]

    A pattern is a sequence of atoms; [Many cls min] is the greedy
    quantifier [[cls]{min,}] ([+] is [min = 1]).  [match_here] tries the
    longest repetition first and gives characters back one at a time until
    the rest of the pattern matches, as CPython's backtracking engine does. *)

Module Re.

Inductive atom : Type :=
  | Boundary                                (* \b *)
  | Char (c : ascii)                        (* a literal character *)
  | Many (cls : ascii -> bool) (min : nat). (* [cls]{min,}, greedy *)

Definition pattern := list atom.

(** [\w] of a [str] pattern on one code point below 256: [str.isalnum] or
    the underscore. *)
Definition is_word (c : ascii) : bool :=
  let n := code c in
  (is_digit09 c || is_upper_az c || is_lower_az c || (n =? 95)
   || (n =? 170) || (n =? 178) || (n =? 179) || (n =? 181)
   || (n =? 185) || (n =? 186) || (188 <=? n) && (n <=? 190)
   || (192 <=? n) && (n <=? 214) || (216 <=? n) && (n <=? 246)
   || (248 <=? n) && (n <=? 255))%N.

(** Outside the string there is no word character. *)
Definition is_word_at (c : option ascii) : bool :=
  match c with Some c => is_word c | None => false end.

(** [\b] between the character before the position and the one after. *)
Definition at_boundary (prev next : option ascii) : bool :=
  xorb (is_word_at prev) (is_word_at next).

Fixpoint greedy (cls : ascii -> bool) (min : nat)
    (k : option ascii -> str -> option nat)
    (count : nat) (prev : option ascii) (s : str) {struct s} : option nat :=
  let stop := if (min <=? count)%nat then k prev s else None in
  match s with
  | c :: s' =>
      if cls c then
        match greedy cls min k (S count) (Some c) s' with
        | Some n => Some (S n)
        | None => stop
        end
      else stop
  | [] => stop
  end.

(** Length of the match of [p] that starts here, [prev] being the character
    just before this position. *)
Fixpoint match_here (p : pattern) (prev : option ascii) (s : str)
    {struct p} : option nat :=
  match p with
  | [] => Some 0
  | Boundary :: p' =>
      if at_boundary prev (hd_error s) then match_here p' prev s else None
  | Char a :: p' =>
      match s with
      | c :: s' =>
          if Ascii.eqb a c then option_map S (match_here p' (Some c) s')
          else None
      | [] => None
      end
  | Many cls min :: p' => greedy cls min (match_here p') 0 prev s
  end.

(** The character before the position reached after reading [s]. *)
Definition last_of (prev : option ascii) (s : str) : option ascii :=
  fold_left (fun _ c => Some c) s prev.

(** Declarative reading of a pattern: [matches p prev s n] when the first
    [n] characters of [s] can be split along the atoms of [p]. *)
Fixpoint matches (p : pattern) (prev : option ascii) (s : str) (n : nat)
  : Prop :=
  match p with
  | [] => n = 0
  | Boundary :: p' =>
      at_boundary prev (hd_error s) = true /\ matches p' prev s n
  | Char a :: p' =>
      exists s' n', s = a :: s' /\ n = S n' /\ matches p' (Some a) s' n'
  | Many cls min :: p' =>
      exists run rest m,
        s = run ++ rest /\ Forall (fun c => cls c = true) run
        /\ min <= length run /\ n = length run + m
        /\ matches p' (last_of prev run) rest m
  end.

(** The scan of [finditer]: the spans [(start, length)] of the leftmost
    non-overlapping matches.  [skip] counts the characters still covered by
    the last match, [offset] is the index of the head of [s] in the text. *)
Fixpoint scan (p : pattern) (prev : option ascii) (s : str)
    (skip offset : nat) {struct s} : list (nat * nat) :=
  match s with
  | [] =>
      match skip, match_here p prev [] with
      | 0, Some n => [(offset, n)]
      | _, _ => []
      end
  | c :: s' =>
      match skip with
      | S skip' => scan p (Some c) s' skip' (S offset)
      | 0 =>
          match match_here p prev s with
          | Some n => (offset, n) :: scan p (Some c) s' (pred n) (S offset)
          | None => scan p (Some c) s' 0 (S offset)
          end
      end
  end.

Definition spans (p : pattern) (text : str) : list (nat * nat) :=
  scan p None text 0 0.

(** [text[start:start+len]] *)
Definition slice (text : str) (span : nat * nat) : str :=
  firstn (snd span) (skipn (fst span) text).

(** [re.findall(p, text)] for a pattern without groups. *)
Definition findall (p : pattern) (text : str) : list str :=
  map (slice text) (spans p text).

(** [[A-Za-z0-9._%+-]] *)
Definition local_char (c : ascii) : bool :=
  is_upper_az c || is_lower_az c || is_digit09 c
  || existsb (Ascii.eqb c) ["."; "_"; "%"; "+"; "-"]%char.

(** [[A-Za-z0-9.-]] *)
Definition domain_char (c : ascii) : bool :=
  is_upper_az c || is_lower_az c || is_digit09 c
  || existsb (Ascii.eqb c) ["."; "-"]%char.

(** [[A-Z|a-z]]: inside a character class the bar is a literal. *)
Definition tld_char (c : ascii) : bool :=
  is_upper_az c || Ascii.eqb c "|" || is_lower_az c.

(** [r'\b[A-Za-z0-9._%+-]+@[A-Za-z0-9.-]+\.[A-Z|a-z]{2,}\b'] *)
Definition email_pattern : pattern :=
  [ Boundary; Many local_char 1; Char "@"; Many domain_char 1; Char ".";
    Many tld_char 2; Boundary ].

End Re.

(** ** Python sets of strings

    A [set] is kept as a duplicate-free list in order of first insertion.
    The iteration order of a Python set is unspecified; nothing below
    depends on the order chosen here beyond its being a fixed one. *)

Module PySet.

Definition pyset := list str.

Definition empty : pyset := [].

Definition mem (x : str) (s : pyset) : bool := existsb (str_eqb x) s.

Definition add (s : pyset) (x : str) : pyset :=
  if mem x s then s else s ++ [x].

(** [s.update(xs)] *)
Definition update (s : pyset) (xs : list str) : pyset := fold_left add xs s.

(** [bool(s)] *)
Definition nonempty (s : pyset) : bool :=
  match s with [] => false | _ :: _ => true end.

End PySet.

(** ** ElementTree *)

Module ET.

#[warnings="-register-all"]
Inductive element : Type :=
  Element (tag : str) (text : option str) (children : list element).

Definition tag (e : element) : str := let 'Element t _ _ := e in t.
Definition text (e : element) : option str := let 'Element _ t _ := e in t.
Definition children (e : element) : list element :=
  let 'Element _ _ cs := e in cs.

(** All elements strictly below [e], in document order. *)
Fixpoint descendants (e : element) : list element :=
  match e with
  | Element _ _ cs => flat_map (fun c => c :: descendants c) cs
  end.

(** [e.findall('.//name')] *)
Definition findall (e : element) (name : str) : list element :=
  filter (fun d => str_eqb (tag d) name) (descendants e).

(** [e.find('.//name')] *)
Definition find (e : element) (name : str) : option element :=
  hd_error (findall e name).

End ET.

(** ** The application *)

Module App.

Import PySet ET.

(** The [filters] dictionary built by the search button. *)
Record filters : Type := {
  only_with_emails : bool;
  only_known_authors : bool;
  enable_keyword_filter : bool;
  keywords_list : list str;
  author_filter : str;
  title_filter : str;
  email_domain_filter : str
}.

(** One entry of [results]: the dictionary with keys ['title'], ['author']
    and ['email'].  The three values are always strings, on which
    [x or ''] in [remove_duplicates] is the identity. *)
Record row : Type := mk_row { title : str; author : str; email : str }.

(** [is_keyword_related(title, abstract, keywords_list)] *)
Definition is_keyword_related (title abstract : str)
    (keywords_list : list str) : bool :=
  match keywords_list with
  | [] => true
  | _ :: _ =>
      let text_to_check := lower (title ++ (" " : str) ++ abstract) in
      existsb (fun keyword => contains text_to_check (lower keyword))
              keywords_list
  end.

(** [e is not None and e.text] *)
Definition has_text (e : option element) : bool :=
  match e with Some x => truthy_opt (text x) | None => false end.

(** [e.text], read where [has_text e] holds. *)
Definition text_of (e : option element) : str :=
  match e with Some (Element _ (Some t) _) => t | _ => [] end.

(** [e.text if e is not None and e.text else default] *)
Definition text_or (e : option element) (default : str) : str :=
  if has_text e then text_of e else default.

(** [re.findall(r'\b[A-Za-z0-9._%+-]+@...', text)] *)
Definition email_matches (text : str) : list str :=
  Re.findall Re.email_pattern text.

(** Lines 179-181 and 207-209: the e-mails found in one affiliation text
    are added to the set, when the text is present and not empty. *)
Definition extract_emails (emails : pyset) (text : option str) : pyset :=
  match text with
  | Some t => if truthy t then update emails (email_matches t) else emails
  | None => emails
  end.

(** The loop over [affiliations] that fills [article_emails]. *)
Definition collect_emails (affiliations : list element) : pyset :=
  fold_left (fun article_emails aff => extract_emails article_emails (text aff))
            affiliations empty.

(** Lines 191-192: the test of the known-authors filter. *)
Definition unknown_last_name (last_name : option element) : bool :=
  match last_name with
  | None => true
  | Some _ =>
      negb (has_text last_name) || negb (truthy (strip (text_of last_name)))
  end.

(** Lines 194-198. *)
Definition author_name (last_name first_name : option element) : str :=
  if has_text last_name then
    if has_text first_name && truthy (strip (text_of first_name))
    then strip (text_of first_name) ++ (" " : str) ++ strip (text_of last_name)
    else strip (text_of last_name)
  else "Unknown Author".

(** Lines 205-209: the e-mails of the author's own affiliation. *)
Definition own_emails (author : element) : pyset :=
  match find author "Affiliation" with
  | Some author_aff => extract_emails empty (text author_aff)
  | None => empty
  end.

(** Lines 205-213: the author's e-mails after the fallback. *)
Definition author_emails (article_emails : pyset) (author : element)
  : pyset :=
  let author_emails := own_emails author in
  if negb (nonempty author_emails) && nonempty article_emails
  then article_emails
  else author_emails.

(** The loop over [author_emails] of lines 221-230. *)
Definition email_loop (f : filters) (title author_name : str)
    (results : list row) (emails : pyset) : list row :=
  fold_left
    (fun results email =>
       if truthy (email_domain_filter f)
          && negb (contains (lower email) (lower (email_domain_filter f)))
       then results
       else results ++ [mk_row title author_name email])
    emails results.

(** One turn of the loop over [authors] (lines 184-236). *)
Definition author_step (f : filters) (title : str) (article_emails : pyset)
    (results : list row) (author : element) : list row :=
  let last_name := find author "LastName" in
  let first_name := find author "ForeName" in
  if only_known_authors f && unknown_last_name last_name then results else
  let author_name := author_name last_name first_name in
  if truthy (author_filter f)
     && negb (contains (lower author_name) (lower (author_filter f)))
  then results else
  let author_emails := author_emails article_emails author in
  if only_with_emails f && negb (nonempty author_emails) then results else
  if nonempty author_emails
  then email_loop f title author_name results author_emails
  else if negb (only_with_emails f)
  then results ++ [mk_row title author_name "No email found"]
  else results.

(** One turn of the loop over the articles of a batch (lines 155-236). *)
Definition article_step (f : filters) (results : list row)
    (article : element) : list row :=
  let title := text_or (find article "ArticleTitle") "No title" in
  let abstract := text_or (find article "AbstractText") "" in
  if enable_keyword_filter f
     && negb (is_keyword_related title abstract (keywords_list f))
  then results else
  if truthy (title_filter f)
     && negb (contains (lower title) (lower (title_filter f)))
  then results else
  let authors := findall article "Author" in
  let article_emails := collect_emails (findall article "Affiliation") in
  fold_left (author_step f title article_emails) authors results.

(** What [requests.get] followed by [ET.fromstring] does for one batch:
    it raises, or it returns the root of the parsed document. *)
Inductive response : Type :=
  | Raised (e : str)
  | Parsed (root : element).

(** The state of the batch loop: [results], and the warnings shown with
    [st.warning], each with its batch number and the exception text. *)
Record run : Type := mk_run {
  results : list row;
  warnings : list (nat * str)
}.

(** [range(0, n, 20)] *)
Definition range20 (n : nat) : list nat :=
  map (fun k => 20 * k) (seq 0 ((n + 19) / 20)).

(** One turn of the batch loop (lines 136-242).  [efetch batch_num batch]
    stands for the remote service. *)
Definition batch_step (efetch : nat -> list str -> response) (f : filters)
    (pmids : list str) (st : run) (i : nat) : run :=
  let batch := firstn 20 (skipn i pmids) in
  let batch_num := i / 20 + 1 in
  match efetch batch_num batch with
  | Parsed root =>
      mk_run (fold_left (article_step f) (findall root "PubmedArticle")
                        (results st))
             (warnings st)
  | Raised e => mk_run (results st) (warnings st ++ [(batch_num, e)])
  end.

(** [fetch_article_details(pmids, api_key, filters)] *)
Definition fetch_article_details (efetch : nat -> list str -> response)
    (pmids : list str) (f : filters) : run :=
  match pmids with
  | [] => mk_run [] []
  | _ :: _ =>
      fold_left (batch_step efetch f pmids) (range20 (length pmids))
                (mk_run [] [])
  end.

(** The normalised key of [remove_duplicates]. *)
Definition key (r : row) : str * str * str :=
  (lower (strip (title r)), lower (strip (author r)), lower (strip (email r))).

Definition key_eqb (a b : str * str * str) : bool :=
  let '(a1, a2, a3) := a in
  let '(b1, b2, b3) := b in
  str_eqb a1 b1 && str_eqb a2 b2 && str_eqb a3 b3.

(** The loop of [remove_duplicates]: the state is [(seen, unique_data)]. *)
Definition dedup_step (st : list (str * str * str) * list row) (r : row)
  : list (str * str * str) * list row :=
  let '(seen, unique_data) := st in
  if existsb (key_eqb (key r)) seen then (seen, unique_data)
  else (seen ++ [key r], unique_data ++ [r]).

(** [remove_duplicates(data)] *)
Definition remove_duplicates (data : list row) : list row :=
  snd (fold_left dedup_step data ([], [])).

End App.

(** ** Definitions that follow the specification's wording

    These state what the specification says of the Deduplicator, the Record
    Normalizer, the Contact Extractor, the Filter Engine and the batches;
    the theorems below compare them with the definitions of [App]. *)

Module Spec.

Import PySet ET App.

(** Deduplicator: a field is normalised by trimming and lowercasing it;
    two rows have the same normalised key when their titles, authors and
    e-mails agree after normalisation. *)
Definition normalized (field : str) : str := lower (strip field).

Definition same_key (r1 r2 : row) : bool :=
  str_eqb (normalized (title r1)) (normalized (title r2))
  && str_eqb (normalized (author r1)) (normalized (author r2))
  && str_eqb (normalized (email r1)) (normalized (email r2)).

(** Deduplicator: keep a row exactly when its normalised key has not
    appeared in any earlier row. *)
Fixpoint keep_first (earlier data : list row) : list row :=
  match data with
  | [] => []
  | r :: data' =>
      if existsb (same_key r) earlier
      then keep_first (earlier ++ [r]) data'
      else r :: keep_first (earlier ++ [r]) data'
  end.

(** [keep_first] written with the key function of [remove_duplicates]; the
    lemmas on [remove_duplicates] go through it. *)
Fixpoint first_occurrences (earlier data : list row) : list row :=
  match data with
  | [] => []
  | r :: data' =>
      if existsb (key_eqb (key r)) (map key earlier)
      then first_occurrences (earlier ++ [r]) data'
      else r :: first_occurrences (earlier ++ [r]) data'
  end.

(** Two strings that differ only in case or in leading and trailing
    whitespace: each is a core padded with whitespace, and the cores are
    equal up to case. *)
Definition same_modulo_case_and_padding (a b : str) : Prop :=
  exists la ca ra lb cb rb,
    a = la ++ ca ++ ra /\ b = lb ++ cb ++ rb
    /\ Forall (fun c => isspace c = true) (la ++ ra ++ lb ++ rb)
    /\ lower ca = lower cb.

Definition rows_same_modulo_case_and_padding (r1 r2 : row) : Prop :=
  same_modulo_case_and_padding (title r1) (title r2)
  /\ same_modulo_case_and_padding (author r1) (author r2)
  /\ same_modulo_case_and_padding (email r1) (email r2).

(** Display name of an author entry, from the optional last and first
    names: first and last name trimmed and joined by a space, the trimmed
    last name alone when the first name is absent or blank, and
    ["Unknown Author"] when the last name is absent or blank. *)
Definition display_name (last_name first_name : option str) : str :=
  match last_name with
  | Some l =>
      if truthy (strip l) then
        match first_name with
        | Some fn =>
            if truthy (strip fn) then strip fn ++ (" " : str) ++ strip l
            else strip l
        | None => strip l
        end
      else "Unknown Author"
  | None => "Unknown Author"
  end.

(** The text of an optional child element, absent when the element is. *)
Definition entry_text (e : option element) : option str :=
  match e with Some x => text x | None => None end.

(** The character classes of the Contact Extractor. *)
Definition letter (c : ascii) : bool := is_upper_az c || is_lower_az c.

Definition local_part_char (c : ascii) : bool :=
  letter c || is_digit09 c
  || existsb (Ascii.eqb c) ["."; "_"; "%"; "+"; "-"]%char.

Definition domain_part_char (c : ascii) : bool :=
  letter c || is_digit09 c || existsb (Ascii.eqb c) ["."; "-"]%char.

Definition all_in (cls : ascii -> bool) (s : str) : Prop :=
  Forall (fun c => cls c = true) s.

(** A string of the form local part, [@], domain, [.], final segment. *)
Definition email_form (final : ascii -> bool) (s : str) : Prop :=
  exists local domain tld,
    s = local ++ "@"%char :: domain ++ "."%char :: tld
    /\ local <> [] /\ all_in local_part_char local
    /\ domain <> [] /\ all_in domain_part_char domain
    /\ 2 <= length tld /\ all_in final tld.

(** The form of the specification: the final segment is letters only. *)
Definition email_shaped (s : str) : Prop := email_form letter s.

(** [s] occurs in [text] at index [start], between two word boundaries. *)
Definition occurs_bounded (text : str) (start : nat) (s : str) : Prop :=
  exists before after,
    text = before ++ s ++ after /\ length before = start
    /\ Re.at_boundary (Re.last_of None before) (hd_error s) = true
    /\ Re.at_boundary (Re.last_of None (before ++ s)) (hd_error after) = true.

(** The Contact Extractor as a set comprehension: [found] holds exactly
    the substrings of [text] of the specified form between word
    boundaries. *)
Definition exactly_the_email_substrings (text : str) (found : pyset) : Prop :=
  forall s, In s found
            <-> exists start, occurs_bounded text start s /\ email_shaped s.

(** The known-author and author-name filters of one author. *)
Definition author_passes (f : filters) (author : element) : bool :=
  let last_name := find author "LastName" in
  let name := author_name last_name (find author "ForeName") in
  (if only_known_authors f then negb (unknown_last_name last_name) else true)
  && (if truthy (author_filter f)
      then contains (lower name) (lower (author_filter f)) else true).

(** The domain filter on one e-mail: it contains the configured substring,
    case-insensitively. *)
Definition domain_keeps (f : filters) (email : str) : bool :=
  contains (lower email) (lower (email_domain_filter f)).


(** The batches of a run: slices of twenty identifiers, numbered from 1. *)
Definition batches (pmids : list str) : list (nat * list str) :=
  map (fun i => (i / 20 + 1, firstn 20 (skipn i pmids)))
      (range20 (length pmids)).

(** The rows one parsed batch produces when processed on its own. *)
Definition batch_rows (f : filters) (root : element) : list row :=
  fold_left (article_step f) (findall root "PubmedArticle") [].

(** What a batch contributes to the rows: nothing when its retrieval
    raised. *)
Definition rows_of_batch (efetch : nat -> list str -> response)
    (f : filters) (b : nat * list str) : list row :=
  match efetch (fst b) (snd b) with
  | Parsed root => batch_rows f root
  | Raised _ => []
  end.

(** What a batch contributes to the warnings: one warning when its
    retrieval raised. *)
Definition warnings_of_batch (efetch : nat -> list str -> response)
    (b : nat * list str) : list (nat * str) :=
  match efetch (fst b) (snd b) with
  | Parsed _ => []
  | Raised e => [(fst b, e)]
  end.

End Spec.

(** ** Sample records, from the end-to-end scenarios of the specification *)

Module Samples.

Import ET App.

Definition leaf (name : string) (content : string) : element :=
  Element name (Some (content : str)) [].

(** An author with a personal affiliation that carries two addresses. *)
Definition jane : element :=
  Element "Author" None
    [ leaf "LastName" "Doe"; leaf "ForeName" "Jane";
      Element "AffiliationInfo" None
        [ leaf "Affiliation" "Dept X, jane@uni.edu; jane.doe@gmail.com" ] ].

(** An author without affiliation. *)
Definition john : element :=
  Element "Author" None [ leaf "LastName" "Smith"; leaf "ForeName" "John" ].

Definition article : element :=
  Element "PubmedArticle" None
    [ leaf "ArticleTitle" "Food reward mechanisms";
      Element "AuthorList" None [ jane; john ] ].

(** The default configuration, without keywords. *)
Definition defaults : filters :=
  {| only_with_emails := true; only_known_authors := true;
     enable_keyword_filter := false; keywords_list := [];
     author_filter := []; title_filter := []; email_domain_filter := [] |}.

Definition uni_only : filters :=
  {| only_with_emails := true; only_known_authors := true;
     enable_keyword_filter := false; keywords_list := [];
     author_filter := []; title_filter := [];
     email_domain_filter := ("uni.edu" : str) |}.

(** Scenario 1: one author whose affiliation carries one address. *)
Definition scenario1 : element :=
  Element "PubmedArticleSet" None
    [ Element "PubmedArticle" None
        [ leaf "ArticleTitle" "Food reward mechanisms";
          Element "AuthorList" None
            [ Element "Author" None
                [ leaf "LastName" "Doe"; leaf "ForeName" "Jane";
                  leaf "Affiliation" "Dept X, jane.doe@harvard.edu" ] ] ] ].

(** Scenario 3: two authors without affiliation of their own, and one
    affiliation outside the author list. *)
Definition scenario3 : element :=
  Element "PubmedArticleSet" None
    [ Element "PubmedArticle" None
        [ leaf "ArticleTitle" "Food reward mechanisms";
          Element "AuthorList" None
            [ Element "Author" None [ leaf "LastName" "Doe" ];
              Element "Author" None [ leaf "LastName" "Smith" ] ];
          leaf "Affiliation" "The lab, lab@uni.edu" ] ].

Definition with_keywords : filters :=
  {| only_with_emails := true; only_known_authors := true;
     enable_keyword_filter := true;
     keywords_list := [("food addiction" : str); ("food reward" : str)];
     author_filter := []; title_filter := []; email_domain_filter := [] |}.

End Samples.

(** ** The rest of the script

    The keyword box, the search, the batch counter of the progress bar and
    the handler of the search button.  The calls that only draw on the page
    (headers, spinner, data frame, download button) are left out; the
    messages and the three metrics are kept in [outcome]. *)

Module Script.

Import PySet ET App.

Definition newline : ascii := "010".

(** [s.split(sep)] for a separator of one character: the first piece and
    the pieces after it. *)
Fixpoint split_pieces (sep : ascii) (s : str) : str * list str :=
  match s with
  | [] => ([], [])
  | c :: s' =>
      let (piece, pieces) := split_pieces sep s' in
      if Ascii.eqb c sep then ([], piece :: pieces) else (c :: piece, pieces)
  end.

Definition split (sep : ascii) (s : str) : list str :=
  let (piece, pieces) := split_pieces sep s in piece :: pieces.

(** [sep.join(xs)] *)
Fixpoint join (sep : str) (xs : list str) : str :=
  match xs with
  | [] => []
  | [x] => x
  | x :: xs' => x ++ sep ++ join sep xs'
  end.

(** Lines 71-76. *)
Definition default_keywords : list str :=
  map of_string
    [ "food addiction"; "food addictive"; "addictive eating";
      "eating addiction"; "compulsive eating"; "food craving";
      "hedonic eating"; "binge eating"; "overeating"; "food reward";
      "eating behavior"; "obesogenic"; "hyperpalatable"; "food dependence";
      "eating disorder" ]%string.

(** Line 80: the initial content of the keyword box. *)
Definition default_keywords_text : str := join [newline] default_keywords.

(** Line 84:
    [[k.strip() for k in keywords_text.split('\n') if k.strip()]] *)
Definition keywords_of_text (keywords_text : str) : list str :=
  map strip (filter (fun k => truthy (strip k)) (split newline keywords_text)).

(** Line 134: [len(pmids) // 20 + (1 if len(pmids) % 20 else 0)] *)
Definition total_batches (n : nat) : nat :=
  n / 20 + (if Nat.eqb (n mod 20) 0 then 0 else 1).

(** [search_pubmed(term, max_results, api_key)]: the identifiers returned
    and the message shown with [st.error], if any.  [esearch] stands for
    [requests.get] followed by [ET.fromstring]; the text of an [Id] element
    may be [None]. *)
Definition search_pubmed
    (esearch : str -> nat -> option str -> response)
    (term : str) (max_results : nat) (api_key : option str)
  : list (option str) * list str :=
  if negb (truthy_opt api_key)
  then ([], [("Please provide a PubMed API key" : str)])
  else
    match esearch term max_results api_key with
    | Parsed root => (map text (findall root "Id"), [])
    | Raised e => ([], [("Error searching PubMed: " : str) ++ e])
    end.

(** The identifiers as strings, when none of them is [None]. *)
Fixpoint all_text (pmids : list (option str)) : option (list str) :=
  match pmids with
  | [] => Some []
  | Some id :: pmids' => option_map (cons id) (all_text pmids')
  | None :: _ => None
  end.

(** [fetch_article_details] on the identifiers of [search_pubmed].  Line 145
    joins the batch with [','.join(batch)] before the [try]: an identifier
    that is [None] raises a [TypeError] that nothing catches, and the call
    returns nothing ([None] here). *)
Definition fetch_found (efetch : nat -> list str -> response)
    (pmids : list (option str)) (f : filters) : option run :=
  option_map (fun ids => fetch_article_details efetch ids f) (all_text pmids).

(** Line 315:
    [len([r for r in unique_results if r['email'] != 'No email found'])] *)
Definition emails_count (unique_results : list row) : nat :=
  length (filter (fun r => negb (str_eqb (email r) "No email found"))
                 unique_results).

(** The values of the widgets when the search button is pressed. *)
Record widgets : Type := {
  api_key : option str;
  max_results : nat;
  only_with_emails : bool;
  only_known_authors : bool;
  enable_keyword_filter : bool;
  search_term : str;
  author_filter : str;
  title_filter : str;
  email_domain_filter : str;
  keywords_text : str
}.

(** Lines 275-283. *)
Definition filters_of (w : widgets) : filters :=
  {| App.only_with_emails := only_with_emails w;
     App.only_known_authors := only_known_authors w;
     App.enable_keyword_filter := enable_keyword_filter w;
     App.keywords_list :=
       if enable_keyword_filter w then keywords_of_text (keywords_text w)
       else [];
     App.author_filter := author_filter w;
     App.title_filter := title_filter w;
     App.email_domain_filter := email_domain_filter w |}.

(** What pressing the search button leads to. *)
Inductive outcome : Type :=
  | ConfigurationError (message : str)
  | NoArticles (search_errors : list str)
  | Uncaught
  | NoResults (found : nat) (warnings : list (nat * str))
  | Table (found : nat) (warnings : list (nat * str))
          (unique_results : list row)
          (total_entries duplicates_removed authors_with_emails : nat).

(** Lines 268-336. *)
Definition search_button (w : widgets)
    (esearch : str -> nat -> option str -> response)
    (efetch : nat -> list str -> response) : outcome :=
  if negb (truthy_opt (api_key w))
  then ConfigurationError "Please provide a PubMed API key in the sidebar"
  else if negb (truthy (search_term w))
  then ConfigurationError "Please enter a search term"
  else
    let filters := filters_of w in
    let (pmids, search_errors) :=
      search_pubmed esearch (search_term w) (max_results w) (api_key w) in
    match pmids with
    | [] => NoArticles search_errors
    | _ :: _ =>
        match fetch_found efetch pmids filters with
        | None => Uncaught
        | Some final =>
            match results final with
            | [] => NoResults (length pmids) (warnings final)
            | _ :: _ =>
                let unique_results := remove_duplicates (results final) in
                Table (length pmids) (warnings final) unique_results
                  (length unique_results)
                  (length (results final) - length unique_results)
                  (if only_with_emails w then length unique_results
                   else emails_count unique_results)
            end
        end
    end.

(** Whether a retrieval raised. *)
Definition is_raised (r : response) : bool :=
  match r with Raised _ => true | Parsed _ => false end.

(** The identifiers of batch number [n]: [pmids[20 * (n - 1) : 20 * n]]. *)
Definition batch_of (pmids : list str) (n : nat) : list str :=
  firstn 20 (skipn (20 * (n - 1)) pmids).

(** Sample input for the handler. *)
Definition sample_widgets : widgets :=
  {| api_key := Some ("key" : str); max_results := 1000;
     only_with_emails := true; only_known_authors := true;
     enable_keyword_filter := true;
     search_term := "Food Addiction"; author_filter := [];
     title_filter := []; email_domain_filter := [];
     keywords_text := default_keywords_text |}.

Definition id_list (ids : list element) : element :=
  Element "eSearchResult" None [Element "IdList" None ids].

End Script.

(** * Theorems *)

Import PySet ET App.

(** ** Strings *)

Lemma str_eqb_eq (a b : str) : str_eqb a b = true <-> a = b.
Proof.
  unfold str_eqb. destruct (list_eq_dec ascii_dec a b); split; congruence.
Qed.

Lemma str_eqb_refl (a : str) : str_eqb a a = true.
Proof. now apply str_eqb_eq. Qed.

Lemma startswith_spec (s prefix : str) :
  startswith s prefix = true <-> exists rest, s = prefix ++ rest.
Proof.
  revert s. induction prefix as [|p prefix IH]; intros s.
  - split; [intros _; now exists s | intros _; now destruct s].
  - destruct s as [|c s]; cbn [startswith].
    + split; [discriminate | intros [rest H]; discriminate].
    + rewrite andb_true_iff, Ascii.eqb_eq, IH. split.
      * intros [-> [rest ->]]. now exists rest.
      * intros [rest H]. injection H as -> ->.
        split; [reflexivity | now exists rest].
Qed.

(** [needle in hay] holds exactly when [needle] occurs in [hay]. *)
Lemma contains_spec (hay needle : str) :
  contains hay needle = true
  <-> exists before after, hay = before ++ needle ++ after.
Proof.
  induction hay as [|c hay IH].
  - cbn [contains]. rewrite orb_false_r, startswith_spec. split.
    + intros [rest H]. now exists [], rest.
    + intros [before [after H]].
      destruct before; [now exists after | discriminate].
  - cbn [contains]. rewrite orb_true_iff, startswith_spec, IH. split.
    + intros [[rest H] | [before [after H]]].
      * now exists [], rest.
      * exists (c :: before), after. now rewrite H.
    + intros [[|b before] [after H]].
      * left. now exists after.
      * right. injection H as _ H. now exists before, after.
Qed.

Lemma isspace_lower_char (c : ascii) : isspace (lower_char c) = isspace c.
Proof. destruct c as [[] [] [] [] [] [] [] []]; reflexivity. Qed.

Lemma lstrip_lower (s : str) : lstrip (lower s) = lower (lstrip s).
Proof.
  induction s as [|c s IH]; [reflexivity|].
  cbn [lower map lstrip] in *. rewrite isspace_lower_char.
  destruct (isspace c); [exact IH | reflexivity].
Qed.

Lemma lower_rev (s : str) : lower (rev s) = rev (lower s).
Proof. unfold lower. now rewrite map_rev. Qed.

Lemma strip_lower (s : str) : strip (lower s) = lower (strip s).
Proof.
  unfold strip, rstrip.
  now rewrite lstrip_lower, <- lower_rev, lstrip_lower, lower_rev.
Qed.

Lemma lstrip_spaces (ws s : str) :
  Forall (fun c => isspace c = true) ws -> lstrip (ws ++ s) = lstrip s.
Proof.
  induction 1 as [|c ws Hc _ IH]; [reflexivity|].
  cbn [app lstrip]. now rewrite Hc.
Qed.

Lemma lstrip_app (s t : str) :
  lstrip (s ++ t) = lstrip s ++ t
  \/ (lstrip s = [] /\ lstrip (s ++ t) = lstrip t).
Proof.
  induction s as [|c s IH]; [now right|].
  cbn [app lstrip]. destruct (isspace c); [exact IH | now left].
Qed.

Lemma rstrip_spaces (s ws : str) :
  Forall (fun c => isspace c = true) ws -> rstrip (s ++ ws) = rstrip s.
Proof.
  intros H. unfold rstrip. rewrite rev_app_distr, lstrip_spaces; [reflexivity|].
  now apply Forall_rev.
Qed.

Lemma lstrip_all_spaces (ws : str) :
  Forall (fun c => isspace c = true) ws -> lstrip ws = [].
Proof.
  intros H. rewrite <- (app_nil_r ws). now rewrite lstrip_spaces.
Qed.

(** Padding a string with whitespace does not change what [strip] returns. *)
Lemma strip_padded (l s r : str) :
  Forall (fun c => isspace c = true) l ->
  Forall (fun c => isspace c = true) r ->
  strip (l ++ s ++ r) = strip s.
Proof.
  intros Hl Hr. unfold strip. rewrite lstrip_spaces by assumption.
  destruct (lstrip_app s r) as [-> | [E ->]].
  - now apply rstrip_spaces.
  - rewrite E, (lstrip_all_spaces Hr). reflexivity.
Qed.

Lemma same_modulo_key (a b : str) :
  Spec.same_modulo_case_and_padding a b -> lower (strip a) = lower (strip b).
Proof.
  intros (la & ca & ra & lb & cb & rb & -> & -> & Hws & Hc).
  apply Forall_app in Hws as [Hla Hws]. apply Forall_app in Hws as [Hra Hws].
  apply Forall_app in Hws as [Hlb Hrb].
  rewrite !strip_padded by assumption.
  now rewrite <- !strip_lower, Hc.
Qed.

(** ** The Deduplicator *)

Lemma key_eqb_eq (a b : str * str * str) : key_eqb a b = true <-> a = b.
Proof.
  destruct a as [[a1 a2] a3], b as [[b1 b2] b3]. unfold key_eqb.
  rewrite !andb_true_iff, !str_eqb_eq. split.
  - intros [[-> ->] ->]. reflexivity.
  - intros H. injection H as -> -> ->. auto.
Qed.

Lemma existsb_key_In (k : str * str * str) (l : list (str * str * str)) :
  existsb (key_eqb k) l = true <-> In k l.
Proof.
  rewrite existsb_exists. split.
  - intros [x [Hx E]]. apply key_eqb_eq in E. now subst.
  - intros H. exists k. split; [assumption | now apply key_eqb_eq].
Qed.

Lemma existsb_key_ext (k : str * str * str) (l1 l2 : list (str * str * str)) :
  (In k l1 <-> In k l2) ->
  existsb (key_eqb k) l1 = existsb (key_eqb k) l2.
Proof.
  intros H. apply eq_true_iff_eq. now rewrite !existsb_key_In.
Qed.

Lemma first_occurrences_ext (data e1 e2 : list row) :
  (forall k, In k (map key e1) <-> In k (map key e2)) ->
  Spec.first_occurrences e1 data = Spec.first_occurrences e2 data.
Proof.
  revert e1 e2. induction data as [|r data IH]; intros e1 e2 H; [reflexivity|].
  cbn [Spec.first_occurrences].
  rewrite (existsb_key_ext (key r) _ _ (H (key r))).
  assert (E : Spec.first_occurrences (e1 ++ [r]) data
              = Spec.first_occurrences (e2 ++ [r]) data).
  { apply IH. intros k. rewrite !map_app, !in_app_iff, H. reflexivity. }
  now rewrite E.
Qed.

Lemma first_occurrences_app (l1 l2 e : list row) :
  Spec.first_occurrences e (l1 ++ l2)
  = Spec.first_occurrences e l1 ++ Spec.first_occurrences (e ++ l1) l2.
Proof.
  revert e. induction l1 as [|r l1 IH]; intros e.
  - now rewrite app_nil_r.
  - cbn [app Spec.first_occurrences]. rewrite IH, <- app_assoc.
    now destruct (existsb _ _).
Qed.

(** The loop invariant of [remove_duplicates]: [seen] holds the keys of
    the rows read so far. *)
Lemma dedup_fold (data earlier : list row) seen (out : list row) :
  (forall k, In k seen <-> In k (map key earlier)) ->
  snd (fold_left dedup_step data (seen, out))
  = out ++ Spec.first_occurrences earlier data.
Proof.
  revert earlier seen out.
  induction data as [|r data IH]; intros earlier seen out H.
  - cbn. now rewrite app_nil_r.
  - cbn [fold_left Spec.first_occurrences dedup_step].
    rewrite <- (existsb_key_ext (key r) _ _ (H (key r))).
    destruct (existsb (key_eqb (key r)) seen) eqn:E.
    + apply IH. intros k. rewrite map_app, in_app_iff, <- H. cbn.
      apply existsb_key_In in E.
      split; [tauto | intros [Hk | [<- | []]]; assumption].
    + rewrite (IH (earlier ++ [r])), <- app_assoc; [reflexivity|].
      intros k. rewrite map_app, !in_app_iff, H. reflexivity.
Qed.

Lemma remove_duplicates_first_occurrences (data : list row) :
  remove_duplicates data = Spec.first_occurrences [] data.
Proof.
  unfold remove_duplicates. now rewrite (dedup_fold data [] [] []).
Qed.

Lemma first_occurrences_idem (data e e' : list row) :
  (forall k, In k (map key e') -> In k (map key e)) ->
  Spec.first_occurrences e' (Spec.first_occurrences e data)
  = Spec.first_occurrences e data.
Proof.
  revert e e'. induction data as [|r data IH]; intros e e' H; [reflexivity|].
  cbn [Spec.first_occurrences].
  destruct (existsb (key_eqb (key r)) (map key e)) eqn:E.
  - apply IH. intros k Hk. rewrite map_app, in_app_iff. left. now apply H.
  - cbn [Spec.first_occurrences].
    destruct (existsb (key_eqb (key r)) (map key e')) eqn:E'.
    + apply existsb_key_In, H, existsb_key_In in E'. congruence.
    + f_equal. apply IH. intros k. rewrite !map_app, !in_app_iff.
      intros [Hk | Hk]; [left; now apply H | now right].
Qed.

Lemma rows_same_modulo_key (r1 r2 : row) :
  Spec.rows_same_modulo_case_and_padding r1 r2 -> key r1 = key r2.
Proof.
  intros (Ht & Ha & He). unfold key.
  now rewrite (same_modulo_key Ht), (same_modulo_key Ha), (same_modulo_key He).
Qed.

Lemma lstrip_decompose (s : str) :
  exists l, s = l ++ lstrip s /\ Forall (fun c => isspace c = true) l.
Proof.
  induction s as [|c s (l & E & H)]; [now exists []|].
  cbn [lstrip]. destruct (isspace c) eqn:Hc.
  - exists (c :: l). split; [cbn; now rewrite <- E | now constructor].
  - now exists [].
Qed.

Lemma rstrip_decompose (s : str) :
  exists r, s = rstrip s ++ r /\ Forall (fun c => isspace c = true) r.
Proof.
  destruct (lstrip_decompose (rev s)) as (l & E & H).
  exists (rev l). split; [|now apply Forall_rev].
  unfold rstrip. rewrite <- rev_app_distr, <- E. now rewrite rev_involutive.
Qed.

(** A string is what [strip] returns, between two runs of whitespace. *)
Lemma strip_decompose (s : str) :
  exists l r, s = l ++ strip s ++ r
              /\ Forall (fun c => isspace c = true) l
              /\ Forall (fun c => isspace c = true) r.
Proof.
  destruct (lstrip_decompose s) as (l & El & Hl).
  destruct (rstrip_decompose (lstrip s)) as (r & Er & Hr).
  exists l, r. unfold strip. now rewrite <- Er.
Qed.

Lemma key_same_modulo (a b : str) :
  lower (strip a) = lower (strip b) -> Spec.same_modulo_case_and_padding a b.
Proof.
  intros H.
  destruct (strip_decompose a) as (la & ra & Ea & Hla & Hra).
  destruct (strip_decompose b) as (lb & rb & Eb & Hlb & Hrb).
  exists la, (strip a), ra, lb, (strip b), rb.
  repeat split; try assumption.
  repeat (apply Forall_app; split); assumption.
Qed.

(** Two rows have the same key exactly when they differ only in case or in
    leading and trailing whitespace of the three fields. *)
Lemma key_eq_rows_same (r1 r2 : row) :
  key r1 = key r2 <-> Spec.rows_same_modulo_case_and_padding r1 r2.
Proof.
  split; [|apply rows_same_modulo_key].
  unfold key. intros [= Ht Ha He].
  repeat split; now apply key_same_modulo.
Qed.

Lemma same_key_key (r1 r2 : row) :
  Spec.same_key r1 r2 = key_eqb (key r1) (key r2).
Proof. reflexivity. Qed.

Lemma keep_first_first_occurrences (data earlier : list row) :
  Spec.keep_first earlier data = Spec.first_occurrences earlier data.
Proof.
  revert earlier. induction data as [|r data IH]; intros earlier;
    [reflexivity|].
  cbn [Spec.keep_first Spec.first_occurrences]. rewrite !IH.
  replace (existsb (Spec.same_key r) earlier)
    with (existsb (key_eqb (key r)) (map key earlier)); [reflexivity|].
  induction earlier as [|x xs IHx]; [reflexivity|].
  cbn [map existsb]. now rewrite IHx, same_key_key.
Qed.

(** C3: [remove_duplicates] keeps, in their original order, exactly the
    rows whose normalised key (title, author and e-mail, each trimmed and
    lowercased) has not appeared in an earlier row.  Two rows have the same
    key exactly when they differ only in case or in leading and trailing
    whitespace of the three fields: such a later row is dropped, and a row
    that differs otherwise from every earlier row is kept. *)
Theorem C3_remove_duplicates_keeps_first_occurrences :
  forall data : list row,
    remove_duplicates data = Spec.keep_first [] data
    /\ (forall pre r1 mid r2 post,
          data = pre ++ r1 :: mid ++ r2 :: post ->
          Spec.rows_same_modulo_case_and_padding r1 r2 ->
          remove_duplicates data
          = remove_duplicates (pre ++ r1 :: mid ++ post))
    /\ (forall pre r,
          data = pre ++ [r] ->
          (forall r', In r' pre ->
                      ~ Spec.rows_same_modulo_case_and_padding r' r) ->
          remove_duplicates data = remove_duplicates pre ++ [r])
    /\ (forall r1 r2,
          (key r1 = key r2 <-> Spec.rows_same_modulo_case_and_padding r1 r2)
          /\ (Spec.same_key r1 r2 = true
              <-> Spec.rows_same_modulo_case_and_padding r1 r2)).
Proof.
  intros data. split; [|split; [|split]].
  - rewrite keep_first_first_occurrences.
    apply remove_duplicates_first_occurrences.
  - intros pre r1 mid r2 post -> Hsame.
    apply rows_same_modulo_key in Hsame.
    rewrite !remove_duplicates_first_occurrences.
    replace (pre ++ r1 :: mid ++ r2 :: post)
      with ((pre ++ r1 :: mid) ++ r2 :: post) by now rewrite <- app_assoc.
    replace (pre ++ r1 :: mid ++ post)
      with ((pre ++ r1 :: mid) ++ post) by now rewrite <- app_assoc.
    rewrite !first_occurrences_app. f_equal.
    cbn [Spec.first_occurrences app].
    assert (Hin : In (key r2) (map key (pre ++ r1 :: mid))).
    { rewrite map_app, in_app_iff. right. left. assumption. }
    rewrite (proj2 (existsb_key_In _ _) Hin).
    apply first_occurrences_ext. intros k.
    rewrite (map_app key (pre ++ r1 :: mid)), in_app_iff. cbn [map In].
    split; [intros [Hk | [<- | []]]; assumption | tauto].
  - intros pre r -> Hnew.
    rewrite !remove_duplicates_first_occurrences, first_occurrences_app.
    f_equal. cbn [app Spec.first_occurrences].
    destruct (existsb (key_eqb (key r)) (map key pre)) eqn:E; [|reflexivity].
    apply existsb_key_In, in_map_iff in E as [r' [Hk Hin]].
    exfalso. apply (Hnew r' Hin). now apply key_eq_rows_same.
  - intros r1 r2. split; [apply key_eq_rows_same|].
    rewrite same_key_key, key_eqb_eq. apply key_eq_rows_same.
Qed.

(** C8: [remove_duplicates] is idempotent, and the second pass removes no
    row. *)
Theorem C8_remove_duplicates_idempotent :
  forall data : list row,
    remove_duplicates (remove_duplicates data) = remove_duplicates data
    /\ length (remove_duplicates data)
       - length (remove_duplicates (remove_duplicates data)) = 0.
Proof.
  intros data.
  assert (E : remove_duplicates (remove_duplicates data)
              = remove_duplicates data).
  { rewrite (remove_duplicates_first_occurrences (remove_duplicates data)).
    rewrite remove_duplicates_first_occurrences.
    now apply first_occurrences_idem. }
  rewrite E. split; [reflexivity | lia].
Qed.

Lemma C3_witness :
  remove_duplicates
    [ mk_row "Title A" "John Smith" "j@x.com";
      mk_row "  title a" "JOHN SMITH " "J@X.com" ]
  = remove_duplicates [ mk_row "Title A" "John Smith" "j@x.com" ]
  /\ remove_duplicates
       ([ mk_row "Title A" "John Smith" "j@x.com" ]
        ++ [ mk_row "Title A" "John Smith" "john@x.com" ])
     = remove_duplicates [ mk_row "Title A" "John Smith" "j@x.com" ]
       ++ [ mk_row "Title A" "John Smith" "john@x.com" ].
Proof.
  split.
  - refine (proj1 (proj2 (C3_remove_duplicates_keeps_first_occurrences _))
              [] (mk_row "Title A" "John Smith" "j@x.com") []
              (mk_row "  title a" "JOHN SMITH " "J@X.com") [] eq_refl _).
    repeat split; cbn [title author email].
    + exists [], ("Title A" : str), [], ("  " : str), ("title a" : str), [].
      repeat split; repeat constructor.
    + exists [], ("John Smith" : str), [], [], ("JOHN SMITH" : str),
             (" " : str).
      repeat split; repeat constructor.
    + exists [], ("j@x.com" : str), [], [], ("J@X.com" : str), [].
      repeat split; repeat constructor.
  - refine (proj1 (proj2 (proj2
                     (C3_remove_duplicates_keeps_first_occurrences _)))
              [mk_row "Title A" "John Smith" "j@x.com"]
              (mk_row "Title A" "John Smith" "john@x.com") eq_refl _).
    intros r' [<- | []] Hsame.
    apply (proj2 (proj1 (proj2 (proj2 (proj2
             (C3_remove_duplicates_keeps_first_occurrences []))) _ _)))
      in Hsame.
    discriminate Hsame.
Defined.

(** ** Sets *)

Lemma mem_In (x : str) (s : pyset) : mem x s = true <-> In x s.
Proof.
  unfold mem. rewrite existsb_exists. split.
  - intros [y [Hy E]]. apply str_eqb_eq in E. now subst.
  - intros H. exists x. split; [assumption | apply str_eqb_refl].
Qed.

Lemma add_In (s : pyset) (x y : str) : In y (add s x) <-> In y s \/ y = x.
Proof.
  unfold add. destruct (mem x s) eqn:E.
  - apply mem_In in E. split; [now left | intros [H | ->]; assumption].
  - rewrite in_app_iff. cbn. intuition congruence.
Qed.

Lemma update_In (xs : list str) (s : pyset) (y : str) :
  In y (update s xs) <-> In y s \/ In y xs.
Proof.
  unfold update. revert s. induction xs as [|x xs IH]; intros s; cbn.
  - tauto.
  - rewrite IH, add_In. intuition congruence.
Qed.

Lemma add_NoDup (s : pyset) (x : str) : NoDup s -> NoDup (add s x).
Proof.
  intros H. unfold add. destruct (mem x s) eqn:E; [assumption|].
  apply NoDup_app; [assumption | repeat constructor; intros [] |].
  intros y Hy [<- | []]. apply mem_In in Hy. congruence.
Qed.

Lemma update_NoDup (xs : list str) (s : pyset) :
  NoDup s -> NoDup (update s xs).
Proof.
  unfold update. revert s. induction xs as [|x xs IH]; intros s H; cbn.
  - assumption.
  - now apply IH, add_NoDup.
Qed.

(** ** Element trees *)

Lemma element_nested_ind (P : element -> Prop) :
  (forall t x cs, Forall P cs -> P (Element t x cs)) -> forall e, P e.
Proof.
  intros step. fix IH 1. intros [t x cs]. apply step.
  induction cs as [|c cs IHcs]; constructor; [apply IH | exact IHcs].
Qed.

Lemma descendants_children (t : str) (x : option str) (cs : list element)
    (d : element) :
  In d (descendants (Element t x cs))
  <-> exists c, In c cs /\ (d = c \/ In d (descendants c)).
Proof.
  cbn [descendants]. rewrite in_flat_map. split.
  - intros [c [Hc [E | H]]]; exists c; auto.
  - intros [c [Hc [E | H]]]; exists c; cbn; auto.
Qed.

(** What lies below a descendant of [c] lies below [c]. *)
Lemma descendants_trans (a b c : element) :
  In a (descendants b) -> In b (descendants c) -> In a (descendants c).
Proof.
  intros Hab. induction c as [t x cs IH] using element_nested_ind.
  rewrite !descendants_children. intros [ch [Hch [E | H]]].
  - subst b. exists ch. auto.
  - exists ch. split; [assumption|]. right.
    rewrite Forall_forall in IH. now apply IH.
Qed.

Lemma findall_In (e d : element) (name : str) :
  In d (findall e name) <-> In d (descendants e) /\ tag d = name.
Proof. unfold findall. now rewrite filter_In, str_eqb_eq. Qed.

Lemma find_In (e d : element) (name : str) :
  find e name = Some d -> In d (findall e name).
Proof.
  unfold find. destruct (findall e name); [discriminate|].
  intros [= ->]. now left.
Qed.

(** An element found below a descendant is found from the top as well. *)
Lemma find_below (top e d : element) (name1 name2 : str) :
  In e (findall top name1) -> find e name2 = Some d ->
  In d (findall top name2).
Proof.
  intros He Hd. apply find_In in Hd.
  apply findall_In in He as [He _]. apply findall_In in Hd as [Hd Ht].
  apply findall_In. split; [|assumption]. eapply descendants_trans; eassumption.
Qed.

(** ** Accumulating loops *)

Lemma fold_left_append (A B : Type) (step : list B -> A -> list B) :
  (forall acc x, step acc x = acc ++ step [] x) ->
  forall xs acc, fold_left step xs acc = acc ++ flat_map (step []) xs.
Proof.
  intros Hstep. induction xs as [|x xs IH]; intros acc; cbn.
  - now rewrite app_nil_r.
  - now rewrite IH, Hstep, <- app_assoc.
Qed.

Lemma email_loop_spec (f : filters) (title name : str) (emails : pyset)
    (results : list row) :
  email_loop f title name results emails
  = results
    ++ map (mk_row title name)
         (filter (fun e => negb (truthy (email_domain_filter f))
                           || Spec.domain_keeps f e) emails).
Proof.
  unfold email_loop, Spec.domain_keeps. revert results.
  induction emails as [|e emails IH]; intros results; cbn [fold_left filter].
  - cbn. now rewrite app_nil_r.
  - rewrite IH. destruct (truthy (email_domain_filter f)); cbn [negb andb orb].
    + destruct (contains _ _); cbn [negb]; [|reflexivity].
      now rewrite <- app_assoc.
    + now rewrite <- app_assoc.
Qed.

Lemma author_step_append (f : filters) (title : str) (article_emails : pyset)
    (results : list row) (author : element) :
  author_step f title article_emails results author
  = results ++ author_step f title article_emails [] author.
Proof.
  unfold author_step.
  repeat match goal with
         | |- context [if ?b then _ else _] => destruct b
         end;
    rewrite ?app_nil_r, ?email_loop_spec; reflexivity.
Qed.

Lemma article_step_append (f : filters) (results : list row)
    (article : element) :
  article_step f results article = results ++ article_step f [] article.
Proof.
  unfold article_step.
  repeat match goal with
         | |- context [if ?b then _ else _] => destruct b
         end;
    rewrite ?app_nil_r; try reflexivity.
  rewrite !(fold_left_append _ (author_step_append f _ _)). reflexivity.
Qed.

(** ** The batch loop *)

Lemma batch_rows_app (f : filters) (root : element) (acc : list row) :
  fold_left (article_step f) (findall root "PubmedArticle") acc
  = acc ++ Spec.batch_rows f root.
Proof.
  unfold Spec.batch_rows.
  now rewrite !(fold_left_append _ (article_step_append f)).
Qed.

Lemma batch_fold (efetch : nat -> list str -> response) (f : filters)
    (pmids : list str) (idxs : list nat) (st : run) :
  let slice_at i := (i / 20 + 1, firstn 20 (skipn i pmids)) in
  let final := fold_left (batch_step efetch f pmids) idxs st in
  results final
  = results st ++ flat_map (Spec.rows_of_batch efetch f) (map slice_at idxs)
  /\ warnings final
     = warnings st
       ++ flat_map (Spec.warnings_of_batch efetch) (map slice_at idxs).
Proof.
  cbv zeta. revert st. induction idxs as [|i idxs IH]; intros st.
  - cbn. now rewrite !app_nil_r.
  - cbn [fold_left map flat_map].
    destruct (IH (batch_step efetch f pmids st i)) as [Hr Hw].
    rewrite Hr, Hw.
    unfold batch_step, Spec.rows_of_batch, Spec.warnings_of_batch.
    cbn [fst snd]. destruct (efetch _ _) as [e | root]; cbn [results warnings].
    + now rewrite <- app_assoc.
    + now rewrite batch_rows_app, <- app_assoc.
Qed.

(** The batches cover the identifiers, in order and without overlap. *)
Lemma firstn_slices (A : Type) (l : list A) (n : nat) :
  concat (map (fun i => firstn 20 (skipn i l))
              (map (fun k => 20 * k) (seq 0 n)))
  = firstn (20 * n) l.
Proof.
  induction n as [|n IH]; [reflexivity|].
  rewrite seq_S, !map_app, concat_app, IH. cbn [map concat plus].
  rewrite app_nil_r.
  replace (20 * S n) with (20 * n + 20) by lia.
  rewrite <- (firstn_skipn (20 * n) (firstn (20 * n + 20) l)).
  rewrite firstn_firstn, skipn_firstn_comm.
  replace (Init.Nat.min (20 * n) (20 * n + 20)) with (20 * n) by lia.
  replace (20 * n + 20 - 20 * n) with 20 by lia.
  reflexivity.
Qed.

Lemma batches_cover (pmids : list str) :
  concat (map snd (Spec.batches pmids)) = pmids.
Proof.
  unfold Spec.batches. rewrite map_map. cbn [snd]. unfold range20.
  rewrite firstn_slices. apply firstn_all2.
  pose proof (Nat.div_mod_eq (length pmids + 19) 20) as E.
  pose proof (Nat.mod_upper_bound (length pmids + 19) 20). lia.
Qed.

(** C9: a batch whose retrieval or parse raises is reported with one
    warning and contributes no rows; the run continues, and its rows are
    the rows of the successful batches, each processed on its own,
    concatenated in batch order. *)
Theorem C9_failed_batches_are_skipped :
  forall (efetch : nat -> list str -> response) (pmids : list str)
         (f : filters),
    let final := fetch_article_details efetch pmids f in
    results final
    = flat_map (Spec.rows_of_batch efetch f) (Spec.batches pmids)
    /\ warnings final
       = flat_map (Spec.warnings_of_batch efetch) (Spec.batches pmids).
Proof.
  intros efetch pmids f final. subst final.
  unfold fetch_article_details. destruct pmids as [|p pmids].
  - split; reflexivity.
  - apply (batch_fold efetch f (p :: pmids) _ (mk_run [] [])).
Qed.

(** ** The keyword filter *)



(** ** Author names *)

(** Outside the case of a last name that is not empty but all whitespace,
    the name computed by lines 194-198 is the display name of the
    specification. *)
Lemma author_name_display_name (last_name first_name : option element) :
  (forall l, Spec.entry_text last_name = Some l -> l <> [] -> strip l <> []) ->
  author_name last_name first_name
  = Spec.display_name (Spec.entry_text last_name) (Spec.entry_text first_name).
Proof.
  intros H. unfold author_name, Spec.display_name, has_text.
  destruct last_name as [[lt [l|] lc]|]; cbn -[strip] in *; try reflexivity.
  destruct l as [|c l]; [reflexivity|]. cbn [truthy].
  specialize (H (c :: l) eq_refl).
  destruct (strip (c :: l)) as [|c' l'] eqn:El.
  { exfalso. now apply H. }
  cbn [truthy].
  destruct first_name as [[ft [fn|] fc]|]; cbn -[strip]; try reflexivity.
  destruct fn as [|d fn]; reflexivity.
Qed.

(** C1: for a last name made of whitespace only, lines 194-198 return the
    empty string (or the first name followed by a space), where the display
    name of the specification is ["Unknown Author"]. *)
Theorem C1_whitespace_last_name_is_not_unknown_author :
  let last_name := Some (Element "LastName" (Some ("  " : str)) []) in
  let first_name := Some (Element "ForeName" (Some ("Jane" : str)) []) in
  author_name last_name None = []
  /\ author_name last_name first_name = ("Jane " : str)
  /\ Spec.display_name (Some ("  " : str)) None = ("Unknown Author" : str)
  /\ Spec.display_name (Some ("  " : str)) (Some ("Jane" : str))
     = ("Unknown Author" : str)
  /\ unknown_last_name last_name = true.
Proof. cbv zeta. repeat split. Qed.

(** C2: with the known-authors filter off, an author whose last name is
    whitespace only yields a row whose author field is the empty string. *)
Theorem C2_row_with_empty_author :
  let f := {| only_with_emails := false; only_known_authors := false;
              enable_keyword_filter := false; keywords_list := [];
              author_filter := []; title_filter := [];
              email_domain_filter := [] |} in
  let root :=
    Element "PubmedArticleSet" None
      [Element "PubmedArticle" None
         [Element "ArticleTitle" (Some ("Food reward" : str)) [];
          Element "AuthorList" None
            [Element "Author" None
               [Element "LastName" (Some (" " : str)) []]]]] in
  results (fetch_article_details (fun _ _ => Parsed root) [("1" : str)] f)
  = [mk_row "Food reward" [] "No email found"].
Proof. reflexivity. Qed.

(** ** E-mail resolution *)

Lemma nonempty_true (s : pyset) : nonempty s = true <-> s <> [].
Proof. destruct s; cbn; split; intros H; congruence. Qed.

Lemma author_emails_fallback (article_emails : pyset) (author : element) :
  own_emails author = [] -> article_emails <> [] ->
  author_emails article_emails author = article_emails.
Proof.
  unfold author_emails. intros -> H. apply nonempty_true in H. now rewrite H.
Qed.

Lemma author_emails_own (article_emails : pyset) (author : element) :
  own_emails author <> [] ->
  author_emails article_emails author = own_emails author.
Proof.
  unfold author_emails. intros H. apply nonempty_true in H. now rewrite H.
Qed.

(** C4: an author whose own affiliation yields no e-mail takes the
    article-level set when that set is not empty; an author whose own
    affiliation yields e-mails keeps exactly those, whatever the
    article-level set is. *)
Theorem C4_email_fallback :
  forall (article_emails : pyset) (author : element),
    (own_emails author = [] -> article_emails <> [] ->
     author_emails article_emails author = article_emails)
    /\ (own_emails author <> [] ->
        author_emails article_emails author = own_emails author).
Proof.
  intros article_emails author. split.
  - apply author_emails_fallback.
  - apply author_emails_own.
Qed.

Lemma C4_witness :
  author_emails [("lab@uni.edu" : str)]
    (Element "Author" None [Element "LastName" (Some ("Doe" : str)) []])
  = [("lab@uni.edu" : str)]
  /\ author_emails [("lab@uni.edu" : str)]
       (Element "Author" None
          [Samples.leaf "Affiliation" "Dept X, jane.doe@harvard.edu"])
     = [("jane.doe@harvard.edu" : str)].
Proof.
  split.
  - apply (proj1 (C4_email_fallback _ _)); [reflexivity | discriminate].
  - rewrite (proj2 (C4_email_fallback _ _)); [reflexivity | discriminate].
Defined.

Lemma extract_emails_In (emails : pyset) (text : option str) (e : str) :
  In e (extract_emails emails text)
  <-> In e emails \/ exists t, text = Some t /\ In e (email_matches t).
Proof.
  unfold extract_emails. destruct text as [[|c t]|]; cbn [truthy].
  - split; [now left | intros [H | [t [[= <-] []]]]; assumption].
  - rewrite update_In. split.
    + intros [H | H]; [now left | right; now exists (c :: t)].
    + intros [H | [t' [[= <-] H]]]; [now left | now right].
  - split; [now left | intros [H | [t [[=] _]]]; assumption].
Qed.

Lemma collect_emails_In (affiliations : list element) (e : str) :
  In e (collect_emails affiliations)
  <-> exists aff t, In aff affiliations /\ text aff = Some t
                    /\ In e (email_matches t).
Proof.
  unfold collect_emails.
  enough (G : forall acc,
             In e (fold_left
                     (fun article_emails aff =>
                        extract_emails article_emails (text aff))
                     affiliations acc)
             <-> In e acc
                 \/ exists aff t, In aff affiliations /\ text aff = Some t
                                  /\ In e (email_matches t)).
  { rewrite G. cbn. tauto. }
  induction affiliations as [|a affs IH]; intros acc; cbn [fold_left].
  - split; [now left | intros [H | [aff [t [[] _]]]]; assumption].
  - rewrite IH, extract_emails_In. split.
    + intros [[H | [t [Ht H]]] | [aff [t [Hin H]]]]; [now left | right | right].
      * exists a, t. repeat split; [now left | assumption..].
      * exists aff, t. split; [now right | assumption].
    + intros [H | [aff [t [[-> | Hin] [H1 H2]]]]]; [now left; left | |].
      * left. right. now exists t.
      * right. now exists aff, t.
Qed.

Lemma own_emails_In (author : element) (e : str) :
  In e (own_emails author)
  -> exists aff t, find author "Affiliation" = Some aff
                   /\ text aff = Some t /\ In e (email_matches t).
Proof.
  unfold own_emails.
  destruct (find author "Affiliation") as [aff|]; [|intros []].
  rewrite extract_emails_In. intros [[] | [t [Ht H]]]. now exists aff, t.
Qed.



(** ** The domain filter *)

Lemma author_step_rows (f : filters) (title : str) (article_emails : pyset)
    (author : element) :
  email_domain_filter f <> [] ->
  author_emails article_emails author <> [] ->
  author_step f title article_emails [] author
  = if Spec.author_passes f author
    then map (mk_row title
                (author_name (find author "LastName") (find author "ForeName")))
             (filter (Spec.domain_keeps f)
                     (author_emails article_emails author))
    else [].
Proof.
  intros Hdom Hres. unfold author_step, Spec.author_passes.
  apply nonempty_true in Hres. rewrite Hres. cbn [negb].
  rewrite andb_false_r, email_loop_spec.
  assert (Ht : truthy (email_domain_filter f) = true).
  { destruct (email_domain_filter f); [congruence | reflexivity]. }
  rewrite Ht. cbn [negb orb app].
  destruct (only_known_authors f), (unknown_last_name _); cbn [andb negb];
    try reflexivity;
    destruct (truthy (author_filter f)); cbn [andb negb];
    try reflexivity; destruct (contains _ _); reflexivity.
Qed.

(** C6: with a domain filter, an author who passes the author filters and
    has resolved e-mails yields one row for each resolved e-mail that
    contains the configured substring, case-insensitively, and no other row;
    of two resolved e-mails of which one contains it, only that one yields
    a row. *)
Theorem C6_domain_filter_is_per_email :
  forall (f : filters) (title : str) (article_emails : pyset)
         (author : element),
    email_domain_filter f <> [] ->
    author_emails article_emails author <> [] ->
    Spec.author_passes f author = true ->
    let name := author_name (find author "LastName") (find author "ForeName") in
    let resolved := author_emails article_emails author in
    let rows := author_step f title article_emails [] author in
    rows = map (mk_row title name) (filter (Spec.domain_keeps f) resolved)
    /\ (forall e, In (mk_row title name e) rows
                  <-> In e resolved /\ Spec.domain_keeps f e = true)
    /\ (forall e1 e2,
          resolved = [e1; e2] \/ resolved = [e2; e1] ->
          Spec.domain_keeps f e1 = true -> Spec.domain_keeps f e2 = false ->
          rows = [mk_row title name e1]).
Proof.
  intros f title article_emails author Hdom Hres Hpass name resolved rows.
  assert (E : rows = map (mk_row title name)
                         (filter (Spec.domain_keeps f) resolved)).
  { subst rows. rewrite author_step_rows by assumption. now rewrite Hpass. }
  split; [exact E|]. split.
  - intros e. rewrite E, in_map_iff. split.
    + intros [e' [[= ->] H]]. now apply filter_In in H.
    + intros H. exists e. split; [reflexivity | now apply filter_In].
  - intros e1 e2 Hcase H1 H2. rewrite E.
    destruct Hcase as [-> | ->]; cbn [filter]; rewrite H1, H2; reflexivity.
Qed.

Lemma C6_witness :
  author_step Samples.uni_only ("Food reward mechanisms" : str) []
    [] Samples.jane
  = [mk_row "Food reward mechanisms" "Jane Doe" "jane@uni.edu"].
Proof.
  refine (proj2 (proj2 (C6_domain_filter_is_per_email
                          Samples.uni_only ("Food reward mechanisms" : str)
                          [] Samples.jane _ _ eq_refl))
                ("jane@uni.edu" : str) ("jane.doe@gmail.com" : str)
                (or_introl eq_refl) eq_refl eq_refl).
  - discriminate.
  - discriminate.
Defined.

(** ** The matcher *)

Lemma last_of_app (prev : option ascii) (a b : str) :
  Re.last_of prev (a ++ b) = Re.last_of (Re.last_of prev a) b.
Proof. apply fold_left_app. Qed.

Lemma last_of_cons (prev : option ascii) (c : ascii) (s : str) :
  Re.last_of prev (c :: s) = Re.last_of (Some c) s.
Proof. reflexivity. Qed.

(** What a successful greedy repetition has read. *)
Lemma greedy_sound (cls : ascii -> bool) (min : nat)
    (k : option ascii -> str -> option nat) (s : str) :
  forall count prev n,
    Re.greedy cls min k count prev s = Some n ->
    exists run rest m,
      s = run ++ rest /\ Forall (fun c => cls c = true) run
      /\ min <= count + length run /\ n = length run + m
      /\ k (Re.last_of prev run) rest = Some m.
Proof.
  induction s as [|c s IH]; intros count prev n H; cbn [Re.greedy] in H.
  - destruct (min <=? count)%nat eqn:E; [|discriminate].
    apply Nat.leb_le in E. exists [], [], n. cbn. repeat split; auto. lia.
  - assert (Hstop : (if (min <=? count)%nat then k prev (c :: s) else None)
                    = Some n ->
                    exists run rest m,
                      c :: s = run ++ rest
                      /\ Forall (fun c => cls c = true) run
                      /\ min <= count + length run /\ n = length run + m
                      /\ k (Re.last_of prev run) rest = Some m).
    { intros Hs. destruct (min <=? count)%nat eqn:E; [|discriminate].
      apply Nat.leb_le in E. exists [], (c :: s), n. cbn.
      repeat split; auto. lia. }
    destruct (cls c) eqn:Hc; [|now apply Hstop].
    destruct (Re.greedy cls min k (S count) (Some c) s) as [n'|] eqn:Hg;
      [|now apply Hstop].
    injection H as <-.
    apply IH in Hg as (run & rest & m & -> & Hrun & Hmin & -> & Hk).
    exists (c :: run), rest, m. cbn [length app].
    repeat split; auto. lia.
Qed.

(** A greedy repetition succeeds as soon as some split lets the rest of
    the pattern match. *)
Lemma greedy_complete (cls : ascii -> bool) (min : nat)
    (k : option ascii -> str -> option nat) (run rest : str) :
  forall count prev m,
    Forall (fun c => cls c = true) run ->
    min <= count + length run ->
    k (Re.last_of prev run) rest = Some m ->
    exists n, Re.greedy cls min k count prev (run ++ rest) = Some n.
Proof.
  induction run as [|c run IH]; intros count prev m Hrun Hmin Hk.
  - cbn in Hmin, Hk. cbn [app].
    assert (E : (min <=? count)%nat = true) by (apply Nat.leb_le; lia).
    destruct rest as [|c rest]; cbn [Re.greedy]; rewrite E.
    + now exists m.
    + destruct (cls c); [|now exists m].
      destruct (Re.greedy cls min k (S count) (Some c) rest) as [n|];
        [now exists (S n) | now exists m].
  - inversion Hrun as [|? ? Hc Hrun']; subst. cbn [app Re.greedy]. rewrite Hc.
    destruct (IH (S count) (Some c) m Hrun') as [n Hn];
      [cbn in Hmin; lia | exact Hk |].
    rewrite Hn. now exists (S n).
Qed.

Lemma match_here_sound (p : Re.pattern) :
  forall prev s n, Re.match_here p prev s = Some n -> Re.matches p prev s n.
Proof.
  induction p as [|a p IH]; intros prev s n H; cbn [Re.match_here] in H.
  - now injection H as <-.
  - destruct a as [|a|cls min]; cbn [Re.matches].
    + destruct (Re.at_boundary prev (hd_error s)) eqn:E; [|discriminate].
      split; [reflexivity | now apply IH].
    + destruct s as [|c s]; [discriminate|].
      destruct (Ascii.eqb a c) eqn:E; [|discriminate].
      apply Ascii.eqb_eq in E. subst c.
      destruct (Re.match_here p (Some a) s) as [n'|] eqn:Hm; [|discriminate].
      injection H as <-. exists s, n'. repeat split. now apply IH.
    + apply greedy_sound in H as (run & rest & m & -> & Hrun & Hmin & -> & Hk).
      exists run, rest, m. repeat split; auto.
Qed.

Lemma match_here_complete (p : Re.pattern) :
  forall prev s n,
    Re.matches p prev s n -> exists n', Re.match_here p prev s = Some n'.
Proof.
  induction p as [|a p IH]; intros prev s n H; cbn [Re.match_here].
  - now exists 0.
  - destruct a as [|a|cls min]; cbn [Re.matches] in H.
    + destruct H as [-> H]. now apply IH in H.
    + destruct H as (s' & n' & -> & -> & H). rewrite Ascii.eqb_refl.
      apply IH in H as [m ->]. now exists (S m).
    + destruct H as (run & rest & m & -> & Hrun & Hmin & -> & H).
      apply IH in H as [m' Hm'].
      eapply greedy_complete; eauto.
Qed.

(** Every span of the scan is a match at its position. *)
Lemma scan_sound (p : Re.pattern) (s : str) :
  forall prev skip offset i n,
    In (i, n) (Re.scan p prev s skip offset) ->
    exists pre post,
      s = pre ++ post /\ i = offset + length pre
      /\ Re.matches p (Re.last_of prev pre) post n.
Proof.
  induction s as [|c s IH]; intros prev skip offset i n H; cbn [Re.scan] in H.
  - destruct skip; [|destruct H].
    destruct (Re.match_here p prev []) as [m|] eqn:E; [|destruct H].
    destruct H as [[= <- <-] | []]. exists [], []. cbn.
    repeat split; [lia | now apply match_here_sound].
  - assert (Hnext : forall skip',
               In (i, n) (Re.scan p (Some c) s skip' (S offset)) ->
               exists pre post,
                 c :: s = pre ++ post /\ i = offset + length pre
                 /\ Re.matches p (Re.last_of prev pre) post n).
    { intros skip' Hin.
      apply IH in Hin as (pre & post & -> & -> & Hm).
      exists (c :: pre), post. cbn [length app].
      repeat split; [lia | exact Hm]. }
    destruct skip as [|skip]; [|now apply Hnext in H].
    destruct (Re.match_here p prev (c :: s)) as [m|] eqn:E;
      [|now apply Hnext in H].
    destruct H as [[= <- <-] | H]; [|now apply Hnext in H].
    exists [], (c :: s). cbn. repeat split; [lia | now apply match_here_sound].
Qed.

(** The scan is leftmost and skips nothing: a position where the pattern
    matches is the start of a span or lies inside an earlier one. *)
Lemma scan_covers (p : Re.pattern) :
  (forall prev s n, Re.match_here p prev s = Some n -> 0 < n) ->
  forall s prev skip offset pre post n,
    s = pre ++ post -> skip <= length pre ->
    Re.matches p (Re.last_of prev pre) post n ->
    exists i n', In (i, n') (Re.scan p prev s skip offset)
                 /\ i <= offset + length pre < i + n'.
Proof.
  intros Hpos.
  induction s as [|c s IH]; intros prev skip offset pre post n Hs Hskip Hm.
  - destruct pre; [|discriminate]. cbn [app] in Hs. subst post.
    cbn in Hskip. assert (skip = 0) by lia. subst skip.
    apply match_here_complete in Hm as [n' Hn']. cbn in Hn'.
    exists offset, n'. cbn [Re.scan]. rewrite Hn'.
    split; [now left|]. apply Hpos in Hn'. cbn. lia.
  - assert (Hnext : forall skip' pre',
               pre = c :: pre' -> skip' <= length pre' ->
               exists i n',
                 In (i, n') (Re.scan p (Some c) s skip' (S offset))
                 /\ i <= offset + length pre < i + n').
    { intros skip' pre' -> Hskip'. injection Hs as Hs.
      destruct (IH (Some c) skip' (S offset) pre' post n Hs Hskip' Hm)
        as (i & n' & Hin & Hi).
      exists i, n'. split; [assumption | cbn [length]; lia]. }
    cbn [Re.scan]. destruct skip as [|skip].
    + destruct pre as [|c' pre'].
      * cbn [app] in Hs. subst post.
        apply match_here_complete in Hm as [n' Hn']. cbn in Hn'. rewrite Hn'.
        exists offset, n'. split; [now left|]. apply Hpos in Hn'. cbn. lia.
      * injection Hs as <- Hs.
        destruct (Re.match_here p prev (c :: s)) as [m|] eqn:E.
        -- destruct (Nat.lt_ge_cases (length (c :: pre')) m) as [Hlt | Hge].
           ++ exists offset, m. split; [now left | lia].
           ++ destruct (Hnext (pred m) pre' eq_refl) as (i & n' & Hin & Hi).
              { cbn [length] in Hge. lia. }
              exists i, n'. split; [now right | assumption].
        -- apply (Hnext 0 pre' eq_refl). lia.
    + destruct pre as [|c' pre']; [cbn in Hskip; lia|].
      injection Hs as <- Hs. apply (Hnext skip pre' eq_refl).
      cbn [length] in Hskip. lia.
Qed.

(** ** The Contact Extractor *)

Lemma hd_error_app (A : Type) (a b : list A) :
  a <> [] -> hd_error (a ++ b) = hd_error a.
Proof. destruct a; [congruence | reflexivity]. Qed.

Lemma tld_char_letter (c : ascii) :
  Re.tld_char c = true -> c <> "|"%char -> Spec.letter c = true.
Proof.
  unfold Re.tld_char, Spec.letter. intros H Hc.
  destruct (Ascii.eqb c "|") eqn:E; [apply Ascii.eqb_eq in E; congruence|].
  now rewrite orb_false_r in H.
Qed.

Lemma letter_tld_char (c : ascii) :
  Spec.letter c = true -> Re.tld_char c = true.
Proof.
  unfold Re.tld_char, Spec.letter. rewrite !orb_true_iff. tauto.
Qed.

(** A match of the e-mail pattern, read off atom by atom. *)
Lemma email_match_form (prev : option ascii) (s : str) (n : nat) :
  Re.matches Re.email_pattern prev s n ->
  exists e rest,
    s = e ++ rest /\ length e = n
    /\ Spec.email_form Re.tld_char e
    /\ Re.at_boundary prev (hd_error e) = true
    /\ Re.at_boundary (Re.last_of prev e) (hd_error rest) = true.
Proof.
  cbn [Re.matches Re.email_pattern].
  intros (Hb1 & L & r1 & m1 & -> & HL & HminL & -> & s2 & n2 & -> & -> &
          D & r3 & m3 & -> & HD & HminD & -> & s4 & n4 & -> & -> &
          T & r5 & m5 & -> & HT & HminT & -> & Hb2 & ->).
  assert (HLne : L <> []) by (destruct L; [cbn in HminL; lia | discriminate]).
  assert (HDne : D <> []) by (destruct D; [cbn in HminD; lia | discriminate]).
  exists (L ++ "@"%char :: D ++ "."%char :: T), r5. repeat split.
  - rewrite <- !app_assoc. cbn [app]. now rewrite <- !app_assoc.
  - rewrite !length_app. cbn [length]. rewrite !length_app. cbn [length]. lia.
  - exists L, D, T. repeat split; assumption.
  - rewrite hd_error_app in Hb1 by assumption.
    now rewrite hd_error_app by assumption.
  - rewrite last_of_app, last_of_cons, last_of_app, last_of_cons.
    exact Hb2.
Qed.

(** A bounded substring of the specified form is a match of the pattern. *)
Lemma email_shaped_matches (prev : option ascii) (e rest : str) :
  Spec.email_shaped e ->
  Re.at_boundary prev (hd_error e) = true ->
  Re.at_boundary (Re.last_of prev e) (hd_error rest) = true ->
  Re.matches Re.email_pattern prev (e ++ rest) (length e).
Proof.
  intros (L & D & T & -> & HLne & HL & HDne & HD & HT2 & HT) Hb1 Hb2.
  cbn [Re.matches Re.email_pattern]. split.
  { rewrite hd_error_app by (destruct L; [congruence | discriminate]).
    exact Hb1. }
  exists L, ("@"%char :: D ++ "."%char :: T ++ rest),
         (S (length D + S (length T + 0))).
  repeat split.
  - rewrite <- !app_assoc. cbn [app]. now rewrite <- !app_assoc.
  - exact HL.
  - destruct L; [congruence | cbn; lia].
  - rewrite !length_app. cbn [length]. rewrite !length_app. cbn [length]. lia.
  - exists (D ++ "."%char :: T ++ rest), (length D + S (length T + 0)).
    repeat split.
    exists D, ("."%char :: T ++ rest), (S (length T + 0)). repeat split.
    + exact HD.
    + destruct D; [congruence | cbn; lia].
    + exists (T ++ rest), (length T + 0). repeat split.
      exists T, rest, 0. repeat split.
      * eapply Forall_impl; [|exact HT]. apply letter_tld_char.
      * exact HT2.
      * rewrite last_of_app, last_of_cons, last_of_app, last_of_cons in Hb2.
        exact Hb2.
Qed.

Lemma email_match_positive (prev : option ascii) (s : str) (n : nat) :
  Re.match_here Re.email_pattern prev s = Some n -> 0 < n.
Proof.
  intros H. apply match_here_sound, email_match_form in H
    as (e & rest & _ & <- & (L & D & T & -> & _) & _).
  rewrite length_app. cbn [length]. lia.
Qed.

Lemma slice_at (pre post : str) (n : nat) :
  Re.slice (pre ++ post) (length pre, n) = firstn n post.
Proof.
  unfold Re.slice. cbn [fst snd]. now rewrite skipn_app, skipn_all, Nat.sub_diag.
Qed.

(** A span of the scan holds a substring of the text between word
    boundaries, of the form of the pattern. *)
Lemma span_sound (t : str) (i n : nat) :
  In (i, n) (Re.spans Re.email_pattern t) ->
  Spec.occurs_bounded t i (Re.slice t (i, n))
  /\ length (Re.slice t (i, n)) = n
  /\ Spec.email_form Re.tld_char (Re.slice t (i, n)).
Proof.
  unfold Re.spans. intros Hin.
  apply scan_sound in Hin as (pre & post & -> & -> & Hm). cbn [plus].
  apply email_match_form in Hm as (e & rest & -> & <- & Hform & Hb1 & Hb2).
  rewrite slice_at, firstn_app, Nat.sub_diag, firstn_all. cbn [firstn].
  rewrite app_nil_r. repeat split; [|exact Hform].
  exists pre, rest. repeat split; [assumption|].
  now rewrite last_of_app.
Qed.

Lemma email_matches_sound (t e : str) :
  In e (email_matches t) ->
  exists start, Spec.occurs_bounded t start e /\ Spec.email_form Re.tld_char e.
Proof.
  unfold email_matches, Re.findall. rewrite in_map_iff.
  intros [[i n] [<- Hin]]. exists i.
  apply span_sound in Hin as (Ho & _ & Hf). now split.
Qed.

(** A bounded substring of the specified form starts inside a span of the
    scan, and the text of that span is returned. *)
Lemma email_matches_cover (t s : str) (start : nat) :
  Spec.occurs_bounded t start s -> Spec.email_shaped s ->
  exists e at_, In e (email_matches t)
                /\ Spec.occurs_bounded t at_ e
                /\ at_ <= start < at_ + length e.
Proof.
  intros (before & after & -> & <- & Hb1 & Hb2) Hshape.
  rewrite last_of_app in Hb2.
  pose proof (@email_shaped_matches _ _ _ Hshape Hb1 Hb2) as Hm.
  destruct (@scan_covers Re.email_pattern email_match_positive
              (before ++ s ++ after) None 0 0 before (s ++ after) (length s)
              eq_refl (Nat.le_0_l _) Hm) as (i & n & Hin & Hi).
  exists (Re.slice (before ++ s ++ after) (i, n)), i.
  destruct (@span_sound _ _ _ Hin) as (Ho & -> & _).
  repeat split; try (cbn in Hi; lia); try exact Ho.
  unfold email_matches, Re.findall. apply in_map. exact Hin.
Qed.

Lemma email_form_any (final : ascii -> bool) (e : str) :
  Spec.email_form final e -> Spec.email_form (fun _ => true) e.
Proof.
  intros (L & D & T & -> & HL & HLc & HD & HDc & HT & _).
  exists L, D, T. repeat split; try assumption.
  apply Forall_forall. reflexivity.
Qed.

Lemma email_form_without_bar (e : str) :
  Spec.email_form Re.tld_char e -> ~ In "|"%char e -> Spec.email_shaped e.
Proof.
  intros (L & D & T & -> & HL & HLc & HD & HDc & HT & HTc) Hbar.
  exists L, D, T. repeat split; try assumption.
  apply Forall_forall. intros c Hc. apply tld_char_letter.
  - unfold Spec.all_in in HTc. rewrite Forall_forall in HTc. now apply HTc.
  - intros ->. apply Hbar. rewrite in_app_iff. right. right.
    rewrite in_app_iff. right. now right.
Qed.

(** The final segment of the pattern also reads a vertical bar. *)
Lemma final_segment_reads_bar :
  email_matches "a@b.cd|e" = [("a@b.cd|e" : str)].
Proof. reflexivity. Qed.

(** The extractor returns the matches of the scan, not every substring of
    the form: in ["x.a@b.com"] the substring ["a@b.com"] has the specified
    form and lies between word boundaries, and it is not returned, the scan
    having matched ["x.a@b.com"] from the first character. *)
Lemma extractor_returns_matches_not_every_substring :
  ~ Spec.exactly_the_email_substrings
      ("x.a@b.com" : str) (extract_emails empty (Some ("x.a@b.com" : str))).
Proof.
  intros H. specialize (H ("a@b.com" : str)).
  assert (Hin : In ("a@b.com" : str)
                   (extract_emails empty (Some ("x.a@b.com" : str)))).
  { apply H. exists 2. split.
    - exists ("x." : str), []. repeat split.
    - exists ("a" : str), ("b" : str), ("com" : str).
      repeat split; try discriminate; try (cbn; lia); repeat constructor. }
  vm_compute in Hin. destruct Hin as [Hin | []]. discriminate Hin.
Qed.

(** What holds of the Contact Extractor on every text: it returns distinct
    addresses; every returned address is a substring of the text between
    word boundaries, of the form local part, [@], domain, [.] and a final
    segment of two or more characters, which are letters whenever the
    address holds no vertical bar; every substring of the specified form
    between word boundaries starts inside an occurrence of a returned
    address; an absent or empty text yields the empty set. *)
Lemma contact_extractor_sound_and_covering :
  forall text : option str,
    let found := extract_emails empty text in
    NoDup found
    /\ (truthy_opt text = false -> found = [])
    /\ forall t, text = Some t ->
         (forall e, In e found ->
            exists start,
              Spec.occurs_bounded t start e
              /\ Spec.email_form (fun _ => true) e
              /\ (~ In "|"%char e -> Spec.email_shaped e))
         /\ (forall s start,
               Spec.occurs_bounded t start s -> Spec.email_shaped s ->
               exists e at_,
                 In e found /\ Spec.occurs_bounded t at_ e
                 /\ at_ <= start < at_ + length e).
Proof.
  intros text found. split; [|split].
  - subst found. unfold extract_emails.
    destruct text as [t|]; [|constructor].
    destruct (truthy t); [|constructor]. apply update_NoDup. constructor.
  - subst found. destruct text as [[|c t]|]; cbn [truthy_opt truthy];
      intros H; [reflexivity | discriminate H | reflexivity].
  - intros t ->. subst found. split.
    + intros e He. apply extract_emails_In in He as [[] | [t' [[= <-] He]]].
      apply email_matches_sound in He as (start & Ho & Hf).
      exists start. repeat split; [exact Ho | | ].
      * eapply email_form_any; eassumption.
      * now apply email_form_without_bar.
    + intros s start Ho Hs.
      destruct (@email_matches_cover _ _ _ Ho Hs) as (e & at_ & He & Hoe & Hat).
      exists e, at_. repeat split; try assumption; try lia.
      apply extract_emails_In. right. now exists t.
Qed.

(** A string of the specified form holds no vertical bar. *)
Lemma email_shaped_no_bar (e : str) :
  Spec.email_shaped e -> ~ In "|"%char e.
Proof.
  intros (L & D & T & -> & _ & HL & _ & HD & _ & HT) H.
  unfold Spec.all_in in HL, HD, HT. rewrite Forall_forall in HL, HD, HT.
  apply in_app_iff in H as [H | [H | H]];
    [apply HL in H; discriminate H | discriminate H |].
  apply in_app_iff in H as [H | [H | H]];
    [apply HD in H; discriminate H | discriminate H |].
  apply HT in H. discriminate H.
Qed.

(** C5: the class [[A-Z|a-z]] of the final segment accepts the vertical
    bar.  From two addresses separated by a bar the Contact Extractor
    returns one string that runs across the bar, with a character outside
    the classes of the specification, and neither of the two addresses; the
    same happens for a bar inside the final segment. *)
Theorem C5_final_segment_accepts_vertical_bar :
  extract_emails empty (Some ("john@uni.edu|jane@uni.edu" : str))
  = [("john@uni.edu|jane" : str)]
  /\ In "|"%char ("john@uni.edu|jane" : str)
  /\ ~ Spec.email_shaped ("john@uni.edu|jane" : str)
  /\ Spec.email_shaped ("john@uni.edu" : str)
  /\ Spec.occurs_bounded ("john@uni.edu|jane@uni.edu" : str) 0
       ("john@uni.edu" : str)
  /\ extract_emails empty (Some ("a@b.cd|e" : str)) = [("a@b.cd|e" : str)]
  /\ Re.tld_char "|" = true /\ Spec.letter "|" = false.
Proof.
  split; [reflexivity|]. split.
  { cbn. tauto. }
  split.
  { intros H. apply email_shaped_no_bar in H. apply H. cbn. tauto. }
  split.
  { exists ("john" : str), ("uni" : str), ("edu" : str).
    repeat split; try discriminate; try (cbn; lia); repeat constructor. }
  split.
  { exists [], ("|jane@uni.edu" : str). repeat split. }
  repeat split.
Qed.

(** ** Rows of the pipeline *)

Lemma author_step_row (f : filters) (title : str) (article_emails : pyset)
    (author : element) (r : row) :
  In r (author_step f title article_emails [] author) ->
  (only_known_authors f = true ->
   unknown_last_name (find author "LastName") = false)
  /\ App.author r
     = author_name (find author "LastName") (find author "ForeName")
  /\ (email r = ("No email found" : str)
      \/ In (email r) (author_emails article_emails author)).
Proof.
  unfold author_step.
  destruct (only_known_authors f) eqn:Hk;
    destruct (unknown_last_name (find author "LastName")) eqn:Hu;
    cbn [andb]; try (intros []);
    (destruct (truthy (author_filter f) && _); [intros []|]);
    (destruct (only_with_emails f && _); [intros []|]);
    (destruct (nonempty (author_emails article_emails author));
     [ rewrite email_loop_spec; cbn [app]; rewrite in_map_iff;
       intros [e [<- He]]; apply filter_In in He as [He _]; cbn;
       repeat split; auto; discriminate
     | destruct (negb (only_with_emails f)); [|intros []];
       intros [<- | []]; cbn; repeat split; auto; discriminate ]).
Qed.

Lemma known_author_name_nonempty (last_name first_name : option element) :
  unknown_last_name last_name = false -> author_name last_name first_name <> [].
Proof.
  unfold unknown_last_name, author_name.
  destruct last_name as [ln|]; [|discriminate].
  destruct (has_text (Some ln)); [|discriminate]. cbn [negb orb].
  destruct (strip (text_of (Some ln))) as [|c l] eqn:E; [discriminate|].
  intros _. destruct (has_text first_name && _); [|discriminate].
  intros H. apply (f_equal (@length ascii)) in H.
  rewrite length_app in H. cbn in H. lia.
Qed.

Lemma email_form_nonempty (final : ascii -> bool) (e : str) :
  Spec.email_form final e -> e <> [].
Proof.
  intros (L & D & T & -> & _) H. apply (f_equal (@length ascii)) in H.
  rewrite length_app in H. cbn in H. lia.
Qed.

(** The parts of the row invariant that hold: the e-mail of a row is the
    sentinel or a match of the pattern in some affiliation text, never the
    empty string; and with the known-authors filter on, the author field is
    not empty. *)
Lemma article_rows_invariant (f : filters) (article : element) (r : row) :
  In r (article_step f [] article) ->
  (email r = ("No email found" : str)
   \/ exists t, In (email r) (email_matches t))
  /\ email r <> []
  /\ (only_known_authors f = true -> author r <> []).
Proof.
  unfold article_step.
  destruct (enable_keyword_filter f && _); [intros []|].
  destruct (truthy (title_filter f) && _); [intros []|].
  rewrite (fold_left_append _ (author_step_append f _ _)). cbn [app].
  rewrite in_flat_map. intros [author [Hauthor Hr]].
  apply author_step_row in Hr as (Hknown & Hname & Hemail).
  assert (Hm : email r = ("No email found" : str)
               \/ exists t, In (email r) (email_matches t)).
  { destruct Hemail as [He | He]; [now left | right].
    unfold author_emails in He.
    destruct (negb (nonempty (own_emails author)) && _).
    - apply collect_emails_In in He as (aff & t & _ & _ & He). now exists t.
    - apply own_emails_In in He as (aff & t & _ & _ & He). now exists t. }
  repeat split; [exact Hm | |].
  - destruct Hm as [-> | [t Ht]]; [discriminate|].
    apply email_matches_sound in Ht as (start & _ & Hf).
    eapply email_form_nonempty; eassumption.
  - intros Hk. rewrite Hname. now apply known_author_name_nonempty, Hknown.
Qed.

Lemma run_rows_invariant (efetch : nat -> list str -> response)
    (pmids : list str) (f : filters) (r : row) :
  In r (results (fetch_article_details efetch pmids f)) ->
  (email r = ("No email found" : str)
   \/ exists t, In (email r) (email_matches t))
  /\ email r <> []
  /\ (only_known_authors f = true -> author r <> []).
Proof.
  unfold fetch_article_details. destruct pmids as [|p pmids]; [intros []|].
  rewrite (proj1 (batch_fold efetch f (p :: pmids) _ (mk_run [] []))).
  cbn [results app]. rewrite in_flat_map. intros [b [_ Hr]].
  unfold Spec.rows_of_batch in Hr.
  destruct (efetch (fst b) (snd b)) as [e | root]; [destruct Hr|].
  unfold Spec.batch_rows in Hr.
  rewrite (fold_left_append _ (article_step_append f)) in Hr.
  cbn [app] in Hr. apply in_flat_map in Hr as [article [_ Hr]].
  eapply article_rows_invariant; eassumption.
Qed.

(** ** The end-to-end scenarios of the specification *)

Example scenario_1 :
  fetch_article_details (fun _ _ => Parsed Samples.scenario1)
    [("101" : str)] Samples.with_keywords
  = mk_run [mk_row "Food reward mechanisms" "Jane Doe" "jane.doe@harvard.edu"]
           [].
Proof. reflexivity. Qed.

Example scenario_3 :
  results (fetch_article_details (fun _ _ => Parsed Samples.scenario3)
             [("101" : str)] Samples.with_keywords)
  = [ mk_row "Food reward mechanisms" "Doe" "lab@uni.edu";
      mk_row "Food reward mechanisms" "Smith" "lab@uni.edu" ].
Proof. reflexivity. Qed.

Example scenario_5 :
  remove_duplicates
    [ mk_row "Title A" "John Smith" "j@x.com";
      mk_row "Title A" "John Smith" "j@x.com" ]
  = [ mk_row "Title A" "John Smith" "j@x.com" ].
Proof. reflexivity. Qed.

(** A run of three batches of which the second fails. *)
Example failed_batch_example :
  let efetch (batch_num : nat) (batch : list str) :=
    if Nat.eqb batch_num 2 then Raised "timeout"
    else Parsed Samples.scenario1 in
  let final :=
    fetch_article_details efetch (repeat ("7" : str) 45) Samples.with_keywords in
  length (results final) = 2 /\ warnings final = [(2, ("timeout" : str))].
Proof. split; reflexivity. Qed.

(** * Further properties of the script *)

(** ** [remove_duplicates] *)

Lemma first_occurrences_In (data e : list row) (r : row) :
  In r (Spec.first_occurrences e data) -> In r data.
Proof.
  revert e. induction data as [|x data IH]; intros e; [intros []|].
  cbn [Spec.first_occurrences]. destruct (existsb _ _).
  - intros H. right. eapply IH, H.
  - intros [-> | H]; [now left | right; eapply IH, H].
Qed.

Lemma key_eq_dec (a b : str * str * str) : a = b \/ a <> b.
Proof.
  destruct (key_eqb a b) eqn:E.
  - left. now apply key_eqb_eq.
  - right. intros H. apply key_eqb_eq in H. congruence.
Qed.

Lemma first_occurrences_keys (data e : list row) (k : str * str * str) :
  In k (map key (Spec.first_occurrences e data))
  <-> In k (map key data) /\ ~ In k (map key e).
Proof.
  revert e. induction data as [|r data IH]; intros e.
  - cbn. tauto.
  - cbn [Spec.first_occurrences].
    destruct (existsb (key_eqb (key r)) (map key e)) eqn:E.
    + apply existsb_key_In in E. rewrite IH, map_app, in_app_iff. cbn.
      split.
      * intros [H1 H2]. split; [now right | tauto].
      * intros [[<- | H1] H2]; [contradiction|].
        split; [assumption|]. intros [H | [<- | []]]; contradiction.
    + assert (Hr : ~ In (key r) (map key e)).
      { intros H. apply existsb_key_In in H. congruence. }
      cbn [map In]. rewrite IH, map_app, in_app_iff. cbn. split.
      * intros [<- | [H1 H2]]; [split; [now left | assumption]|].
        split; [now right | tauto].
      * intros [[<- | H1] H2]; [now left|].
        destruct (key_eq_dec (key r) k) as [<- | Hne]; [now left | right].
        split; [assumption|]. intros [H | [H | []]]; contradiction.
Qed.

Lemma first_occurrences_NoDup (data e : list row) :
  NoDup (map key (Spec.first_occurrences e data)).
Proof.
  revert e. induction data as [|r data IH]; intros e; [constructor|].
  cbn [Spec.first_occurrences]. destruct (existsb _ _); [apply IH|].
  cbn [map]. constructor; [|apply IH].
  rewrite first_occurrences_keys, map_app, in_app_iff. cbn. tauto.
Qed.

Lemma first_occurrences_length (data e : list row) :
  length (Spec.first_occurrences e data) <= length data.
Proof.
  revert e. induction data as [|r data IH]; intros e; [reflexivity|].
  cbn [Spec.first_occurrences]. specialize (IH (e ++ [r])).
  destruct (existsb _ _); cbn [length]; lia.
Qed.

Lemma first_occurrences_distinct (data e : list row) :
  NoDup (map key data) ->
  (forall k, In k (map key data) -> ~ In k (map key e)) ->
  Spec.first_occurrences e data = data.
Proof.
  revert e. induction data as [|r data IH]; intros e Hnd He; [reflexivity|].
  cbn [Spec.first_occurrences]. cbn [map] in Hnd, He.
  inversion Hnd as [|? ? Hr Hnd']; subst.
  destruct (existsb (key_eqb (key r)) (map key e)) eqn:E.
  - apply existsb_key_In in E. exfalso. apply (He (key r)); [now left | exact E].
  - f_equal. apply IH; [assumption|].
    intros k Hk. rewrite map_app, in_app_iff. cbn.
    intros [H | [<- | []]]; [|contradiction].
    apply (He k); [now right | assumption].
Qed.

(** X1: the rows kept by [remove_duplicates] have pairwise different
    normalised keys. *)
Theorem remove_duplicates_keys_distinct :
  forall data : list row, NoDup (map key (remove_duplicates data)).
Proof.
  intros data. rewrite remove_duplicates_first_occurrences.
  apply first_occurrences_NoDup.
Qed.

(** X2: [remove_duplicates] invents no row and loses no logical entry: the
    rows kept are rows of the input, and the keys of the rows kept are
    exactly the keys of the input. *)
Theorem remove_duplicates_keeps_every_key :
  forall data : list row,
    incl (remove_duplicates data) data
    /\ forall k, In k (map key (remove_duplicates data))
                 <-> In k (map key data).
Proof.
  intros data. rewrite remove_duplicates_first_occurrences. split.
  - intros r. apply first_occurrences_In.
  - intros k. rewrite first_occurrences_keys. cbn. tauto.
Qed.

(** X3: [remove_duplicates] never returns more rows than it was given, and
    returns no row only for an empty input, so that the count of duplicates
    removed, [len(results) - len(unique_results)], is the exact number of
    rows dropped. *)
Theorem remove_duplicates_length :
  forall data : list row,
    length (remove_duplicates data)
    + (length data - length (remove_duplicates data)) = length data
    /\ (remove_duplicates data = [] <-> data = []).
Proof.
  intros data. rewrite remove_duplicates_first_occurrences.
  pose proof (first_occurrences_length data []) as H. split; [lia|].
  destruct data as [|r data]; [tauto|].
  cbn. split; discriminate.
Qed.

(** X4: a list whose rows already have pairwise different keys comes back
    unchanged. *)
Theorem remove_duplicates_distinct_input :
  forall data : list row,
    NoDup (map key data) -> remove_duplicates data = data.
Proof.
  intros data H. rewrite remove_duplicates_first_occurrences.
  apply first_occurrences_distinct; [assumption | intros k _ []].
Qed.

Lemma remove_duplicates_distinct_input_witness :
  remove_duplicates
    [ mk_row "Title A" "John Smith" "j@x.com";
      mk_row "Title A" "Jane Doe" "j@x.com" ]
  = [ mk_row "Title A" "John Smith" "j@x.com";
      mk_row "Title A" "Jane Doe" "j@x.com" ].
Proof.
  apply remove_duplicates_distinct_input. cbn [map].
  apply NoDup_cons; [intros [H | []]; discriminate H|].
  apply NoDup_cons; [intros [] | apply NoDup_nil].
Defined.

(** X5: deduplication can be done in stages: removing the duplicates of a
    first part before the rest arrives gives the same rows as one pass over
    the whole. *)
Theorem remove_duplicates_staged :
  forall first_part rest : list row,
    remove_duplicates (remove_duplicates first_part ++ rest)
    = remove_duplicates (first_part ++ rest).
Proof.
  intros a b. rewrite !remove_duplicates_first_occurrences.
  rewrite !first_occurrences_app, first_occurrences_idem by tauto.
  f_equal. cbn [app]. apply first_occurrences_ext.
  intros k. rewrite first_occurrences_keys. cbn. tauto.
Qed.

(** ** [is_keyword_related] *)

Lemma lower_char_idem (c : ascii) : lower_char (lower_char c) = lower_char c.
Proof. destruct c as [[] [] [] [] [] [] [] []]; reflexivity. Qed.

Lemma lower_idem (s : str) : lower (lower s) = lower s.
Proof.
  unfold lower. rewrite map_map. apply map_ext, lower_char_idem.
Qed.

Lemma lower_app (a b : str) : lower (a ++ b) = lower a ++ lower b.
Proof. apply map_app. Qed.

Lemma existsb_map_compose (A B : Type) (f : B -> bool) (g : A -> B)
    (l : list A) :
  existsb f (map g l) = existsb (fun x => f (g x)) l.
Proof. induction l as [|x l IH]; cbn; [reflexivity | now rewrite IH]. Qed.

Lemma existsb_pointwise (A : Type) (f g : A -> bool) (l : list A) :
  (forall x, f x = g x) -> existsb f l = existsb g l.
Proof.
  intros H. induction l as [|x l IH]; cbn; [reflexivity | now rewrite H, IH].
Qed.

(** X6: the keyword predicate does not look at case: lowercasing the
    title, the abstract and every keyword leaves its value unchanged. *)
Theorem is_keyword_related_ignores_case :
  forall (title abstract : str) (keywords : list str),
    is_keyword_related (lower title) (lower abstract) (map lower keywords)
    = is_keyword_related title abstract keywords.
Proof.
  intros title abstract keywords. unfold is_keyword_related.
  destruct keywords as [|k ks]; [reflexivity|].
  cbn [map]. rewrite <- (map_cons lower k ks), existsb_map_compose.
  rewrite !lower_app, !lower_idem. apply existsb_pointwise.
  intros kw. now rewrite lower_idem.
Qed.

(** X7: once the list holds a keyword, more keywords never exclude a record
    that passed; only the step from no keyword to some keyword can. *)
Theorem is_keyword_related_more_keywords :
  forall (title abstract : str) (keywords more : list str),
    keywords <> [] ->
    is_keyword_related title abstract keywords = true ->
    is_keyword_related title abstract (keywords ++ more) = true
    /\ is_keyword_related title abstract (more ++ keywords) = true.
Proof.
  intros title abstract keywords more Hne H. unfold is_keyword_related in *.
  destruct keywords as [|k ks]; [congruence|].
  split.
  - cbn [app]. change (k :: ks ++ more) with ((k :: ks) ++ more).
    rewrite existsb_app, H. reflexivity.
  - destruct (more ++ k :: ks) as [|x xs] eqn:E.
    + destruct more; discriminate E.
    + rewrite <- E, existsb_app, H. apply orb_true_r.
Qed.

Lemma is_keyword_related_more_keywords_witness :
  is_keyword_related "Food reward mechanisms" ""
    ([("food reward" : str)] ++ [("binge eating" : str)]) = true
  /\ is_keyword_related "Food reward mechanisms" ""
       ([("binge eating" : str)] ++ [("food reward" : str)]) = true.
Proof.
  apply is_keyword_related_more_keywords; [discriminate | reflexivity].
Defined.

(** X8: for strings of code points below 256, on which [str.lower] acts
    character by character, the text searched is the title, one space and
    the abstract, so a keyword is found across the end of the title and the
    start of the abstract. *)
Theorem is_keyword_related_across_title_and_abstract :
  forall title_start title_end abstract_start abstract_end : str,
    is_keyword_related (title_start ++ title_end)
      (abstract_start ++ abstract_end)
      [title_end ++ (" " : str) ++ abstract_start]
    = true.
Proof.
  intros x u v y. unfold is_keyword_related. cbn [existsb].
  rewrite orb_false_r. apply contains_spec.
  exists (lower x), (lower y). rewrite !lower_app, <- !app_assoc.
  reflexivity.
Qed.

(** ** The batches of [fetch_article_details] *)

Lemma range20_length (n : nat) :
  (n + 19) / 20 = Script.total_batches n.
Proof.
  unfold Script.total_batches.
  pose proof (Nat.div_mod_eq n 20) as E.
  pose proof (Nat.mod_upper_bound n 20) as Hr.
  destruct (Nat.eqb (n mod 20) 0) eqn:Hz.
  - apply Nat.eqb_eq in Hz. symmetry.
    apply (Nat.div_unique (n + 19) 20 (n / 20 + 0) 19); lia.
  - apply Nat.eqb_neq in Hz. symmetry.
    apply (Nat.div_unique (n + 19) 20 (n / 20 + 1) (n mod 20 - 1)); lia.
Qed.

(** The batches, by batch number. *)
Lemma batches_by_number (pmids : list str) :
  Spec.batches pmids
  = map (fun n => (n, Script.batch_of pmids n))
        (seq 1 (Script.total_batches (length pmids))).
Proof.
  unfold Spec.batches, range20. rewrite range20_length, <- seq_shift, !map_map.
  apply map_ext. intros k. unfold Script.batch_of.
  replace (20 * k / 20) with k
    by (rewrite Nat.mul_comm, Nat.div_mul; [reflexivity | discriminate]).
  replace (k + 1) with (S k) by lia. cbn [Nat.sub]. now rewrite Nat.sub_0_r.
Qed.

(** X9: the loop cuts the identifiers into consecutive batches of one to
    twenty identifiers that together are the whole list, in order. *)
Theorem batches_partition_the_identifiers :
  forall pmids : list str,
    concat (map snd (Spec.batches pmids)) = pmids
    /\ Forall (fun b => 1 <= length (snd b) <= 20) (Spec.batches pmids).
Proof.
  intros pmids. split; [apply batches_cover|].
  apply Forall_forall. intros b Hb. unfold Spec.batches, range20 in Hb.
  rewrite map_map in Hb. apply in_map_iff in Hb as [k [<- Hk]].
  apply in_seq in Hk. cbn [snd].
  rewrite length_firstn, length_skipn.
  pose proof (Nat.div_mod_eq (length pmids + 19) 20) as E.
  pose proof (Nat.mod_upper_bound (length pmids + 19) 20). lia.
Qed.

(** X10: the batches are numbered 1, 2, ... up to the batch count of line
    134, so that the count is positive whenever the loop runs and no batch
    number exceeds it: the fraction passed to the progress bar stays between
    0 and 1. *)
Theorem batch_numbers_run_up_to_total_batches :
  forall pmids : list str,
    map fst (Spec.batches pmids)
    = seq 1 (Script.total_batches (length pmids))
    /\ Forall (fun b => 1 <= fst b <= Script.total_batches (length pmids))
              (Spec.batches pmids).
Proof.
  intros pmids. rewrite batches_by_number. split.
  - rewrite map_map. cbn [fst]. apply map_id.
  - apply Forall_forall. intros b Hb.
    apply in_map_iff in Hb as [n [<- Hn]]. apply in_seq in Hn. cbn [fst]. lia.
Qed.

Lemma warnings_by_number (efetch : nat -> list str -> response)
    (pmids : list str) (ns : list nat) :
  flat_map (Spec.warnings_of_batch efetch)
           (map (fun n => (n, Script.batch_of pmids n)) ns)
  = flat_map (fun n => match efetch n (Script.batch_of pmids n) with
                       | Raised e => [(n, e)]
                       | Parsed _ => []
                       end) ns.
Proof.
  induction ns as [|n ns IH]; [reflexivity|].
  cbn [map flat_map]. rewrite IH. unfold Spec.warnings_of_batch. cbn [fst snd].
  now destruct (efetch n _).
Qed.

Lemma run_warnings (efetch : nat -> list str -> response) (pmids : list str)
    (f : filters) :
  warnings (fetch_article_details efetch pmids f)
  = flat_map (fun n => match efetch n (Script.batch_of pmids n) with
                       | Raised e => [(n, e)]
                       | Parsed _ => []
                       end)
             (seq 1 (Script.total_batches (length pmids))).
Proof.
  rewrite <- warnings_by_number, <- batches_by_number.
  unfold fetch_article_details. destruct pmids as [|p pmids]; [reflexivity|].
  apply (batch_fold efetch f (p :: pmids) _ (mk_run [] [])).
Qed.

Lemma run_results (efetch : nat -> list str -> response) (pmids : list str)
    (f : filters) :
  results (fetch_article_details efetch pmids f)
  = flat_map (Spec.rows_of_batch efetch f) (Spec.batches pmids).
Proof.
  unfold fetch_article_details. destruct pmids as [|p pmids]; [reflexivity|].
  apply (batch_fold efetch f (p :: pmids) _ (mk_run [] [])).
Qed.

(** X11: the warnings of a run carry, in increasing order, exactly the
    numbers of the batches whose retrieval raised: one warning for a failed
    batch, none for the others. *)
Theorem warnings_number_the_failed_batches :
  forall (efetch : nat -> list str -> response) (pmids : list str)
         (f : filters),
    map fst (warnings (fetch_article_details efetch pmids f))
    = filter (fun n => Script.is_raised (efetch n (Script.batch_of pmids n)))
             (seq 1 (Script.total_batches (length pmids))).
Proof.
  intros efetch pmids f. rewrite run_warnings.
  induction (seq 1 (Script.total_batches (length pmids))) as [|n ns IH];
    [reflexivity|].
  cbn [flat_map filter]. rewrite map_app, IH.
  now destruct (efetch n (Script.batch_of pmids n)).
Qed.

Lemma flat_map_singleton (A B : Type) (g : A -> B) (l : list A) :
  flat_map (fun x => [g x]) l = map g l.
Proof. induction l as [|x l IH]; cbn; [reflexivity | now rewrite IH]. Qed.

Lemma run_all_raised (e : str) (pmids : list str) (f : filters) :
  fetch_article_details (fun _ _ => Raised e) pmids f
  = mk_run [] (map (fun n => (n, e))
                   (seq 1 (Script.total_batches (length pmids)))).
Proof.
  pose proof (run_warnings (fun _ _ => Raised e) pmids f) as Hw.
  pose proof (run_results (fun _ _ => Raised e) pmids f) as Hr.
  destruct (fetch_article_details (fun _ _ => Raised e) pmids f) as [rs ws].
  cbn [results warnings] in Hw, Hr. rewrite Hw, Hr. clear Hw Hr.
  assert (Hrows : flat_map (Spec.rows_of_batch (fun _ _ => Raised e) f)
                           (Spec.batches pmids) = []).
  { induction (Spec.batches pmids) as [|b bs IH]; [reflexivity | exact IH]. }
  rewrite Hrows, flat_map_singleton. reflexivity.
Qed.

(** X12: when every retrieval raises, the run still ends: it returns no
    row and one warning for each batch, numbered from 1 to the batch
    count. *)
Theorem all_batches_failing :
  forall (e : str) (pmids : list str) (f : filters),
    fetch_article_details (fun _ _ => Raised e) pmids f
    = mk_run [] (map (fun n => (n, e))
                     (seq 1 (Script.total_batches (length pmids)))).
Proof. intros e pmids f. apply run_all_raised. Qed.

(** ** The rows of [fetch_article_details] *)

Lemma truthy_false (s : str) : truthy s = false <-> s = [].
Proof. destruct s; cbn; split; intros H; congruence. Qed.

Lemma contains_empty (s : str) : contains s [] = true.
Proof. destruct s; reflexivity. Qed.

(** Where a row of one author comes from. *)
Lemma author_step_origin (f : filters) (title : str) (article_emails : pyset)
    (author : element) (r : row) :
  In r (author_step f title article_emails [] author) ->
  App.title r = title
  /\ App.author r
     = author_name (find author "LastName") (find author "ForeName")
  /\ Spec.author_passes f author = true
  /\ ((email r = ("No email found" : str) /\ only_with_emails f = false
       /\ author_emails article_emails author = [])
      \/ (In (email r) (author_emails article_emails author)
          /\ (email_domain_filter f = [] \/ Spec.domain_keeps f (email r) = true))).
Proof.
  unfold author_step, Spec.author_passes.
  destruct (only_known_authors f), (unknown_last_name _);
    cbn [andb negb]; try (intros []);
    (destruct (truthy (author_filter f)); cbn [andb];
     [destruct (contains _ (lower (author_filter f))); cbn [negb];
      try (intros []) |]);
    (destruct (nonempty (author_emails article_emails author)) eqn:Hne;
     [ rewrite andb_false_r, email_loop_spec; cbn [app]; rewrite in_map_iff;
       intros [e [<- He]]; apply filter_In in He as [He Hd]; cbn;
       repeat split; right; split; [exact He|];
       apply orb_true_iff in Hd as [Hd | Hd]; [left | now right];
       apply negb_true_iff, truthy_false in Hd; exact Hd
     | destruct (only_with_emails f); cbn [andb negb]; [intros []|];
       intros [<- | []]; cbn; repeat split; left; repeat split;
       destruct (author_emails article_emails author);
       [reflexivity | discriminate Hne] ]).
Qed.

(** Where a row of one article comes from. *)
Lemma article_step_origin (f : filters) (article : element) (r : row) :
  In r (article_step f [] article) ->
  let title := text_or (find article "ArticleTitle") "No title" in
  contains (lower title) (lower (title_filter f)) = true
  /\ exists author,
       In author (findall article "Author")
       /\ In r (author_step f title
                  (collect_emails (findall article "Affiliation")) [] author).
Proof.
  unfold article_step.
  destruct (enable_keyword_filter f && _); [intros []|].
  destruct (truthy (title_filter f)) eqn:Ht; cbn [andb].
  - destruct (contains _ (lower (title_filter f))) eqn:Hc; cbn [negb];
      [|intros []].
    rewrite (fold_left_append _ (author_step_append f _ _)). cbn [app].
    rewrite in_flat_map. intros H. split; [reflexivity | exact H].
  - rewrite (fold_left_append _ (author_step_append f _ _)). cbn [app].
    rewrite in_flat_map. intros H. split; [|exact H].
    apply truthy_false in Ht. rewrite Ht. apply contains_empty.
Qed.

(** Every row of a run is a row of some article, processed on its own. *)
Lemma run_row_origin (efetch : nat -> list str -> response)
    (pmids : list str) (f : filters) (r : row) :
  In r (results (fetch_article_details efetch pmids f)) ->
  exists article, In r (article_step f [] article).
Proof.
  rewrite run_results, in_flat_map. intros [b [_ Hr]].
  unfold Spec.rows_of_batch in Hr.
  destruct (efetch (fst b) (snd b)) as [e | root]; [destruct Hr|].
  unfold Spec.batch_rows in Hr.
  rewrite (fold_left_append _ (article_step_append f)) in Hr.
  cbn [app] in Hr. apply in_flat_map in Hr as [article [_ Hr]].
  now exists article.
Qed.

Lemma text_or_nonempty (e : option element) (default : str) :
  default <> [] -> text_or e default <> [].
Proof.
  unfold text_or, has_text, text_of. intros Hd.
  destruct e as [[t [[|c s]|] cs]|]; cbn; try assumption. discriminate.
Qed.

Lemma author_emails_matches (article : element) (author : element) (e : str) :
  In e (author_emails (collect_emails (findall article "Affiliation")) author) ->
  exists t, In e (email_matches t).
Proof.
  unfold author_emails. destruct (negb _ && _).
  - intros H. apply collect_emails_In in H as (aff & t & _ & _ & H).
    now exists t.
  - intros H. apply own_emails_In in H as (aff & t & _ & _ & H).
    now exists t.
Qed.

Lemma email_form_at_sign (final : ascii -> bool) (e : str) :
  Spec.email_form final e -> In "@"%char e.
Proof.
  intros (L & D & T & -> & _). rewrite in_app_iff. right. now left.
Qed.

(** X13: in every row of a run the title and the e-mail are not empty, and
    the e-mail is either ["No email found"] or a string of the form of the
    pattern: local part, [@], domain, [.] and a final segment of two or more
    characters accepted by [[A-Z|a-z]]. *)
Theorem rows_are_well_formed :
  forall (efetch : nat -> list str -> response) (pmids : list str)
         (f : filters),
    Forall (fun r => title r <> [] /\ email r <> []
                     /\ (email r = ("No email found" : str)
                         \/ Spec.email_form Re.tld_char (email r)))
           (results (fetch_article_details efetch pmids f)).
Proof.
  intros efetch pmids f. apply Forall_forall. intros r Hr.
  apply run_row_origin in Hr as [article Hr].
  apply article_step_origin in Hr as (_ & author & _ & Hr).
  apply author_step_origin in Hr as (Ht & _ & _ & He).
  split; [rewrite Ht; apply text_or_nonempty; discriminate|].
  assert (Hform : email r = ("No email found" : str)
                  \/ Spec.email_form Re.tld_char (email r)).
  { destruct He as [[He _] | [He _]]; [now left | right].
    apply author_emails_matches in He as [t He].
    now apply email_matches_sound in He as (start & _ & Hf). }
  split; [|exact Hform].
  destruct Hform as [-> | Hf]; [discriminate|].
  eapply email_form_nonempty, Hf.
Qed.

(** X14: every row of a run passes the three substring filters: its title
    contains the title filter and its author name the author filter, and
    its e-mail contains the domain filter unless it is ["No email found"];
    all three without regard to case. *)
Theorem rows_pass_the_substring_filters :
  forall (efetch : nat -> list str -> response) (pmids : list str)
         (f : filters),
    Forall (fun r =>
              contains (lower (title r)) (lower (title_filter f)) = true
              /\ contains (lower (author r)) (lower (author_filter f)) = true
              /\ (email r = ("No email found" : str)
                  \/ contains (lower (email r))
                       (lower (email_domain_filter f)) = true))
           (results (fetch_article_details efetch pmids f)).
Proof.
  intros efetch pmids f. apply Forall_forall. intros r Hr.
  apply run_row_origin in Hr as [article Hr].
  apply article_step_origin in Hr as (Htitle & author & _ & Hr).
  apply author_step_origin in Hr as (Ht & Ha & Hpass & He).
  rewrite Ht, Ha. split; [exact Htitle|]. split.
  - unfold Spec.author_passes in Hpass.
    apply andb_true_iff in Hpass as [_ Hpass].
    destruct (truthy (author_filter f)) eqn:E; [exact Hpass|].
    apply truthy_false in E. rewrite E. apply contains_empty.
  - destruct He as [[He _] | [_ [Hd | Hd]]]; [now left | right | right].
    + rewrite Hd. apply contains_empty.
    + exact Hd.
Qed.

Lemma run_rows_with_emails (efetch : nat -> list str -> response)
    (pmids : list str) (f : filters) (r : row) :
  only_with_emails f = true ->
  In r (results (fetch_article_details efetch pmids f)) ->
  email r <> ("No email found" : str) /\ In "@"%char (email r).
Proof.
  intros Hw Hr.
  apply run_row_origin in Hr as [article Hr].
  apply article_step_origin in Hr as (_ & author & _ & Hr).
  apply author_step_origin in Hr as (_ & _ & _ & He).
  destruct He as [[_ [Hw' _]] | [He _]]; [congruence|].
  apply author_emails_matches in He as [t He].
  apply email_matches_sound in He as (start & _ & Hf).
  apply email_form_at_sign in Hf. split; [|exact Hf].
  intros E. rewrite E in Hf. cbn in Hf.
  repeat (destruct Hf as [Hf | Hf]; [discriminate Hf|]). exact Hf.
Qed.

(** X15: with [only_with_emails] on, no row of a run carries
    ["No email found"]: every e-mail holds an [@]. *)
Theorem only_with_emails_excludes_the_sentinel :
  forall (efetch : nat -> list str -> response) (pmids : list str)
         (f : filters),
    only_with_emails f = true ->
    Forall (fun r => email r <> ("No email found" : str)
                     /\ In "@"%char (email r))
           (results (fetch_article_details efetch pmids f)).
Proof.
  intros efetch pmids f Hw. apply Forall_forall. intros r Hr.
  now apply (run_rows_with_emails efetch pmids f).
Qed.

Lemma only_with_emails_excludes_the_sentinel_witness :
  Forall (fun r => email r <> ("No email found" : str)
                   /\ In "@"%char (email r))
         (results (fetch_article_details
                     (fun _ _ => Parsed Samples.scenario3)
                     [("101" : str)] Samples.with_keywords)).
Proof.
  apply only_with_emails_excludes_the_sentinel. reflexivity.
Defined.

(** X16: with [only_known_authors] on, no row of a run has an empty author
    name. *)
Theorem only_known_authors_names_every_row :
  forall (efetch : nat -> list str -> response) (pmids : list str)
         (f : filters),
    only_known_authors f = true ->
    Forall (fun r => author r <> [])
           (results (fetch_article_details efetch pmids f)).
Proof.
  intros efetch pmids f Hk. apply Forall_forall. intros r Hr.
  apply run_row_origin in Hr as [article Hr].
  apply article_step_origin in Hr as (_ & a & _ & Hr).
  apply author_step_origin in Hr as (_ & Ha & Hpass & _).
  rewrite Ha. apply known_author_name_nonempty.
  unfold Spec.author_passes in Hpass. rewrite Hk in Hpass.
  apply andb_true_iff in Hpass as [Hpass _].
  now apply negb_true_iff in Hpass.
Qed.

Lemma only_known_authors_names_every_row_witness :
  Forall (fun r => author r <> [])
         (results (fetch_article_details
                     (fun _ _ => Parsed Samples.scenario3)
                     [("101" : str)] Samples.with_keywords)).
Proof.
  apply only_known_authors_names_every_row. reflexivity.
Defined.

(** X17: the domain filter is applied to e-mails only: an author who passes
    the author filters and has no e-mail at all yields the row with
    ["No email found"] when [only_with_emails] is off, whatever the domain
    filter is. *)
Theorem domain_filter_keeps_authors_without_email :
  forall (f : filters) (title : str) (article_emails : pyset)
         (results : list row) (author : element),
    only_with_emails f = false ->
    Spec.author_passes f author = true ->
    author_emails article_emails author = [] ->
    author_step f title article_emails results author
    = results
      ++ [mk_row title
            (author_name (find author "LastName") (find author "ForeName"))
            "No email found"].
Proof.
  intros f title article_emails results author Hw Hpass He.
  unfold author_step. unfold Spec.author_passes in Hpass.
  apply andb_true_iff in Hpass as [Hk Ha]. rewrite Hw, He. cbn [andb nonempty negb].
  destruct (only_known_authors f); cbn [andb].
  - apply negb_true_iff in Hk. rewrite Hk.
    destruct (truthy (author_filter f)); cbn [andb]; [|reflexivity].
    now rewrite Ha.
  - destruct (truthy (author_filter f)); cbn [andb]; [|reflexivity].
    now rewrite Ha.
Qed.

Lemma domain_filter_keeps_authors_without_email_witness :
  author_step
    {| only_with_emails := false; only_known_authors := true;
       enable_keyword_filter := false; keywords_list := [];
       author_filter := []; title_filter := [];
       email_domain_filter := ("harvard.edu" : str) |}
    ("Food reward mechanisms" : str) [] [] Samples.john
  = [mk_row "Food reward mechanisms" "John Smith" "No email found"].
Proof.
  apply (domain_filter_keeps_authors_without_email
           {| only_with_emails := false; only_known_authors := true;
              enable_keyword_filter := false; keywords_list := [];
              author_filter := []; title_filter := [];
              email_domain_filter := ("harvard.edu" : str) |}
           ("Food reward mechanisms" : str) [] [] Samples.john);
    reflexivity.
Defined.

(** ** The keyword box *)

Lemma lstrip_incl (s : str) (c : ascii) : In c (lstrip s) -> In c s.
Proof.
  induction s as [|x s IH]; [intros []|]. cbn [lstrip].
  destruct (isspace x); [intros H; right; now apply IH | exact (fun H => H)].
Qed.

Lemma strip_incl (s : str) (c : ascii) : In c (strip s) -> In c s.
Proof.
  unfold strip, rstrip. rewrite <- in_rev. intros H.
  apply lstrip_incl in H. rewrite <- in_rev in H. now apply lstrip_incl.
Qed.

Lemma lstrip_idem (s : str) : lstrip (lstrip s) = lstrip s.
Proof.
  induction s as [|c s IH]; [reflexivity|]. cbn [lstrip].
  destruct (isspace c) eqn:E; [exact IH|]. cbn [lstrip]. now rewrite E.
Qed.

Lemma lstrip_head (s : str) :
  lstrip s = [] \/ exists c t, lstrip s = c :: t /\ isspace c = false.
Proof.
  induction s as [|c s IH]; [now left|]. cbn [lstrip].
  destruct (isspace c) eqn:E; [exact IH | right; now exists c, s].
Qed.

Lemma lstrip_keeps_last (s : str) (c : ascii) :
  isspace c = false -> exists t, lstrip (s ++ [c]) = t ++ [c].
Proof.
  intros Hc. induction s as [|x s IH]; cbn [app lstrip].
  - rewrite Hc. now exists [].
  - destruct (isspace x); [exact IH | now exists (x :: s)].
Qed.

Lemma rstrip_keeps_head (s : str) (c : ascii) :
  isspace c = false -> exists t, rstrip (c :: s) = c :: t.
Proof.
  intros Hc. unfold rstrip. cbn [rev].
  destruct (@lstrip_keeps_last (rev s) c Hc) as [t ->].
  rewrite rev_app_distr. now exists (rev t).
Qed.

Lemma rstrip_idem (s : str) : rstrip (rstrip s) = rstrip s.
Proof. unfold rstrip. now rewrite rev_involutive, lstrip_idem. Qed.

(** [strip] leaves nothing for a second [strip] to remove. *)
Lemma strip_idem (s : str) : strip (strip s) = strip s.
Proof.
  unfold strip.
  assert (E : lstrip (rstrip (lstrip s)) = rstrip (lstrip s)).
  { destruct (lstrip_head s) as [-> | (c & t & -> & Hc)]; [reflexivity|].
    destruct (@rstrip_keeps_head t c Hc) as [u ->]. cbn [lstrip]. now rewrite Hc. }
  rewrite E. apply rstrip_idem.
Qed.

Lemma split_pieces_free (sep : ascii) (s : str) :
  Forall (fun piece => ~ In sep piece) (Script.split sep s).
Proof.
  unfold Script.split. induction s as [|c s IH]; cbn [Script.split_pieces].
  - repeat constructor. intros [].
  - destruct (Script.split_pieces sep s) as [piece pieces].
    destruct (Ascii.eqb c sep) eqn:E.
    + constructor; [intros [] | exact IH].
    + inversion IH as [|? ? Hp Hps]; subst. constructor; [|exact Hps].
      intros [-> | H]; [|contradiction].
      now rewrite Ascii.eqb_refl in E.
Qed.

(** X18: the keywords read from the keyword box are never empty, carry no
    leading or trailing whitespace and hold no line break. *)
Theorem keywords_of_text_are_clean :
  forall keywords_text : str,
    Forall (fun k => k <> [] /\ strip k = k /\ ~ In Script.newline k)
           (Script.keywords_of_text keywords_text).
Proof.
  intros text. apply Forall_forall. intros k Hk.
  unfold Script.keywords_of_text in Hk.
  apply in_map_iff in Hk as [piece [<- Hp]].
  apply filter_In in Hp as [Hp Ht]. repeat split.
  - intros E. rewrite E in Ht. discriminate Ht.
  - apply strip_idem.
  - intros H. apply strip_incl in H.
    pose proof (split_pieces_free Script.newline text) as Hfree.
    rewrite Forall_forall in Hfree. exact (Hfree piece Hp H).
Qed.

Lemma split_pieces_whole (sep : ascii) (x : str) :
  ~ In sep x -> Script.split_pieces sep x = (x, []).
Proof.
  induction x as [|c x IH]; intros H; [reflexivity|].
  cbn [Script.split_pieces]. rewrite IH by (intros Hx; apply H; now right).
  destruct (Ascii.eqb c sep) eqn:E; [|reflexivity].
  apply Ascii.eqb_eq in E. exfalso. apply H. now left.
Qed.

Lemma split_first_piece (sep : ascii) (x rest : str) :
  ~ In sep x ->
  Script.split sep (x ++ sep :: rest) = x :: Script.split sep rest.
Proof.
  unfold Script.split. induction x as [|c x IH]; intros H.
  - cbn [app Script.split_pieces]. rewrite Ascii.eqb_refl.
    now destruct (Script.split_pieces sep rest).
  - cbn [app Script.split_pieces].
    assert (Hx : ~ In sep x) by (intros Hx; apply H; now right).
    specialize (IH Hx).
    destruct (Script.split_pieces sep (x ++ sep :: rest)) as [p ps].
    destruct (Script.split_pieces sep rest) as [q qs].
    injection IH as -> ->.
    destruct (Ascii.eqb c sep) eqn:E; [|reflexivity].
    apply Ascii.eqb_eq in E. exfalso. apply H. now left.
Qed.

(** Splitting what [join] built gives the pieces back. *)
Lemma split_join (sep : ascii) (xs : list str) :
  xs <> [] -> Forall (fun x => ~ In sep x) xs ->
  Script.split sep (Script.join [sep] xs) = xs.
Proof.
  induction xs as [|x xs IH]; intros Hne Hfree; [congruence|].
  inversion Hfree as [|? ? Hx Hxs]; subst.
  destruct xs as [|y ys].
  - cbn [Script.join]. unfold Script.split. now rewrite split_pieces_whole.
  - change (Script.join [sep] (x :: y :: ys))
      with (x ++ sep :: Script.join [sep] (y :: ys)).
    rewrite split_first_piece by assumption.
    now rewrite IH by (assumption || discriminate).
Qed.

(** X19: keywords that are clean (not empty, stripped, without line break)
    survive the round trip through the keyword box: joined with line breaks
    and read back, they are the same list.  The default keywords are such a
    list. *)
Theorem keywords_of_text_join :
  forall keywords : list str,
    Forall (fun k => k <> [] /\ strip k = k /\ ~ In Script.newline k)
           keywords ->
    Script.keywords_of_text (Script.join [Script.newline] keywords) = keywords.
Proof.
  intros ks H. unfold Script.keywords_of_text.
  destruct ks as [|k ks]; [reflexivity|].
  rewrite split_join; [|discriminate|].
  - induction H as [|x xs (Hne & Hs & _) _ IH]; [reflexivity|].
    cbn [filter]. rewrite Hs.
    destruct x as [|c x]; [congruence|]. cbn [truthy map].
    now rewrite Hs, IH.
  - eapply Forall_impl; [|exact H]. cbn. tauto.
Qed.

Lemma keywords_of_text_join_witness :
  Script.keywords_of_text Script.default_keywords_text
  = Script.default_keywords.
Proof.
  apply keywords_of_text_join. apply Forall_forall. intros k Hk.
  unfold Script.default_keywords in Hk. cbn [map In] in Hk.
  repeat (destruct Hk as [<- | Hk];
          [ split; [discriminate | split; [reflexivity|]];
            cbn; intros H;
            repeat (destruct H as [H | H]; [discriminate H|]); exact H |]).
  destruct Hk.
Defined.

Lemma split_blank (sep : ascii) (s : str) :
  Forall (fun c => isspace c = true) s ->
  Forall (fun piece => strip piece = []) (Script.split sep s).
Proof.
  intros H.
  enough (G : Forall (fun piece => Forall (fun c => isspace c = true) piece)
                     (Script.split sep s)).
  { eapply Forall_impl; [|exact G]. intros piece Hp. cbn in Hp.
    unfold strip. now rewrite (@lstrip_all_spaces piece Hp). }
  unfold Script.split. induction H as [|c s Hc Hs IH]; cbn [Script.split_pieces].
  - repeat constructor.
  - destruct (Script.split_pieces sep s) as [piece pieces].
    inversion IH as [|? ? Hp Hps]; subst.
    destruct (Ascii.eqb c sep); repeat constructor; assumption.
Qed.

(** X20: a keyword box that holds only whitespace and line breaks gives no
    keyword at all, and the keyword predicate then accepts every record. *)
Theorem blank_keyword_box_filters_nothing :
  forall keywords_text : str,
    Forall (fun c => isspace c = true) keywords_text ->
    Script.keywords_of_text keywords_text = []
    /\ forall title abstract,
         is_keyword_related title abstract
           (Script.keywords_of_text keywords_text) = true.
Proof.
  intros text H.
  assert (E : Script.keywords_of_text text = []).
  { unfold Script.keywords_of_text.
    pose proof (@split_blank Script.newline text H) as Hb.
    induction Hb as [|piece pieces Hp _ IH]; [reflexivity|].
    cbn [filter]. rewrite Hp. exact IH. }
  rewrite E. split; reflexivity.
Qed.

Lemma blank_keyword_box_filters_nothing_witness :
  Script.keywords_of_text [" "; Script.newline; " "; Script.newline]%char = [].
Proof.
  apply blank_keyword_box_filters_nothing. repeat constructor.
Defined.

(** ** The search button *)

Lemma all_text_None (pmids : list (option str)) :
  In None pmids -> Script.all_text pmids = None.
Proof.
  induction pmids as [|[id|] pmids IH]; cbn [Script.all_text In].
  - intros [].
  - intros [H | H]; [discriminate H|]. now rewrite IH.
  - reflexivity.
Qed.

Lemma all_text_Some (pmids : list (option str)) :
  Forall (fun id => id <> None) pmids ->
  exists ids, Script.all_text pmids = Some ids /\ length ids = length pmids.
Proof.
  induction 1 as [|[id|] pmids Hid _ [ids [E L]]]; cbn [Script.all_text].
  - now exists [].
  - rewrite E. exists (id :: ids). cbn. now rewrite L.
  - congruence.
Qed.

Lemma all_text_length (pmids : list (option str)) (ids : list str) :
  Script.all_text pmids = Some ids -> length ids = length pmids.
Proof.
  revert ids. induction pmids as [|[id|] pmids IH]; intros ids;
    cbn [Script.all_text].
  - now intros [= <-].
  - destruct (Script.all_text pmids) as [ids'|]; [|discriminate].
    intros [= <-]. cbn. now rewrite (IH ids' eq_refl).
  - discriminate.
Qed.

Lemma emails_count_all (rows : list row) :
  Forall (fun r => email r <> ("No email found" : str)) rows ->
  Script.emails_count rows = length rows.
Proof.
  unfold Script.emails_count. induction 1 as [|r rows Hr _ IH]; [reflexivity|].
  cbn [filter]. destruct (str_eqb (email r) "No email found") eqn:E.
  - apply str_eqb_eq in E. contradiction.
  - cbn [negb length]. now rewrite IH.
Qed.

(** X21: when the search button ends with a table, the three metrics agree
    with the rows shown: the total is their number and is at least one, the
    total and the duplicates removed add up to the rows extracted, and the
    count of authors with e-mails is the number of rows whose e-mail is not
    ["No email found"], also on the path of line 313 that reports the total
    instead of counting. *)
Theorem search_button_metrics :
  forall (w : Script.widgets)
         (esearch : str -> nat -> option str -> response)
         (efetch : nat -> list str -> response)
         (found : nat) (shown : list (nat * str)) (rows : list row)
         (total removed with_emails : nat),
    Script.search_button w esearch efetch
    = Script.Table found shown rows total removed with_emails ->
    total = length rows /\ 1 <= total
    /\ with_emails = Script.emails_count rows /\ with_emails <= total
    /\ exists ids,
         length ids = found
         /\ rows = remove_duplicates
                     (results (fetch_article_details efetch ids
                                 (Script.filters_of w)))
         /\ total + removed
            = length (results (fetch_article_details efetch ids
                                 (Script.filters_of w))).
Proof.
  intros w esearch efetch found shown rows total removed with_emails.
  unfold Script.search_button.
  destruct (negb (truthy_opt (Script.api_key w))); [discriminate|].
  destruct (negb (truthy (Script.search_term w))); [discriminate|].
  destruct (Script.search_pubmed _ _ _ _) as [pmids errors].
  destruct pmids as [|p pmids]; [discriminate|].
  unfold Script.fetch_found.
  destruct (Script.all_text (p :: pmids)) as [ids|] eqn:Hids; [|discriminate].
  cbn [option_map]. set (f := Script.filters_of w).
  remember (results (fetch_article_details efetch ids f)) as raw eqn:Hraw.
  assert (Hle : length (remove_duplicates raw) <= length raw).
  { rewrite remove_duplicates_first_occurrences.
    apply first_occurrences_length. }
  assert (Hcount : (if Script.only_with_emails w
                    then length (remove_duplicates raw)
                    else Script.emails_count (remove_duplicates raw))
                   = Script.emails_count (remove_duplicates raw)).
  { destruct (Script.only_with_emails w) eqn:Hw; [|reflexivity].
    symmetry. apply emails_count_all, Forall_forall. intros r Hr.
    rewrite remove_duplicates_first_occurrences in Hr.
    apply first_occurrences_In in Hr. rewrite Hraw in Hr.
    now apply (run_rows_with_emails efetch ids f). }
  destruct raw as [|r0 raw']; [discriminate|].
  rewrite Hcount. intros [= <- <- <- <- <- <-].
  split; [reflexivity|]. split.
  { rewrite remove_duplicates_first_occurrences. cbn. lia. }
  split; [reflexivity|]. split.
  { unfold Script.emails_count. apply filter_length_le. }
  exists ids. split; [now apply all_text_length in Hids|].
  rewrite <- Hraw. split; [reflexivity|].
  cbn [length] in Hle |- *.
  destruct (length (remove_duplicates (r0 :: raw'))); lia.
Qed.

(** X22: an answer of the search in which some [Id] element has no text
    makes the search button end with an uncaught error, whatever the other
    identifiers and the retrievals are: the [None] reaches
    [','.join(batch)], outside the [try] of the batch loop. *)
Theorem search_button_id_without_text :
  forall (w : Script.widgets)
         (esearch : str -> nat -> option str -> response)
         (efetch : nat -> list str -> response) (root d : element),
    truthy_opt (Script.api_key w) = true ->
    truthy (Script.search_term w) = true ->
    esearch (Script.search_term w) (Script.max_results w) (Script.api_key w)
    = Parsed root ->
    In d (findall root "Id") -> text d = None ->
    Script.search_button w esearch efetch = Script.Uncaught.
Proof.
  intros w esearch efetch root d Hkey Hterm Hsearch Hd Htext.
  unfold Script.search_button, Script.search_pubmed.
  rewrite Hkey, Hterm, Hsearch. cbn [negb].
  assert (Hin : In None (map text (findall root "Id"))).
  { rewrite <- Htext. now apply in_map. }
  unfold Script.fetch_found. rewrite (all_text_None _ Hin).
  destruct (map text (findall root "Id")); [destruct Hin | reflexivity].
Qed.

Lemma search_button_id_without_text_witness :
  Script.search_button Script.sample_widgets
    (fun _ _ _ =>
       Parsed (Script.id_list [Samples.leaf "Id" "101"; Element "Id" None []]))
    (fun _ _ => Parsed Samples.scenario1)
  = Script.Uncaught.
Proof.
  apply (@search_button_id_without_text Script.sample_widgets
           (fun _ _ _ =>
              Parsed (Script.id_list
                        [Samples.leaf "Id" "101"; Element "Id" None []]))
           (fun _ _ => Parsed Samples.scenario1)
           (Script.id_list [Samples.leaf "Id" "101"; Element "Id" None []])
           (Element "Id" None []));
    try reflexivity.
  right. left. reflexivity.
Defined.

Lemma run_every_batch_raised (efetch : nat -> list str -> response)
    (pmids : list str) (f : filters) :
  (forall n batch, Script.is_raised (efetch n batch) = true) ->
  results (fetch_article_details efetch pmids f) = []
  /\ map fst (warnings (fetch_article_details efetch pmids f))
     = seq 1 (Script.total_batches (length pmids)).
Proof.
  intros Hraised. rewrite run_results, run_warnings. split.
  - induction (Spec.batches pmids) as [|b bs IH]; [reflexivity|].
    cbn [flat_map]. rewrite IH. unfold Spec.rows_of_batch.
    specialize (Hraised (fst b) (snd b)).
    destruct (efetch (fst b) (snd b)); [reflexivity | discriminate Hraised].
  - induction (seq 1 (Script.total_batches (length pmids))) as [|n ns IH];
      [reflexivity|].
    cbn [flat_map]. rewrite map_app, IH.
    specialize (Hraised n (Script.batch_of pmids n)).
    destruct (efetch n (Script.batch_of pmids n));
      [reflexivity | discriminate Hraised].
Qed.

(** X23: when the search finds identifiers and every retrieval raises,
    whatever the exceptions are, the search button ends with the same "no
    results" warning as when the filters exclude every row, after one
    warning for each batch. *)
Theorem search_button_all_retrievals_fail :
  forall (w : Script.widgets)
         (esearch : str -> nat -> option str -> response)
         (efetch : nat -> list str -> response) (root : element),
    truthy_opt (Script.api_key w) = true ->
    truthy (Script.search_term w) = true ->
    esearch (Script.search_term w) (Script.max_results w) (Script.api_key w)
    = Parsed root ->
    findall root "Id" <> [] ->
    Forall (fun d => text d <> None) (findall root "Id") ->
    (forall n batch, Script.is_raised (efetch n batch) = true) ->
    let found := length (findall root "Id") in
    exists shown,
      Script.search_button w esearch efetch = Script.NoResults found shown
      /\ map fst shown = seq 1 (Script.total_batches found).
Proof.
  intros w esearch efetch root Hkey Hterm Hsearch Hne Htext Hraised found.
  unfold Script.search_button, Script.search_pubmed.
  rewrite Hkey, Hterm, Hsearch. cbn [negb].
  assert (Hall : Forall (fun id => id <> None) (map text (findall root "Id"))).
  { apply Forall_forall. intros id Hid.
    apply in_map_iff in Hid as [d [<- Hd]].
    rewrite Forall_forall in Htext. now apply Htext. }
  destruct (all_text_Some Hall) as [ids [Hids Hlen]].
  unfold Script.fetch_found. rewrite Hids. cbn [option_map].
  destruct (run_every_batch_raised efetch ids (Script.filters_of w) Hraised)
    as [Hr Hw].
  rewrite Hr. rewrite length_map in Hlen. rewrite Hlen in Hw.
  exists (warnings (fetch_article_details efetch ids (Script.filters_of w))).
  split; [|exact Hw]. rewrite length_map.
  destruct (findall root "Id"); [congruence | reflexivity].
Qed.

Lemma search_button_all_retrievals_fail_witness :
  exists shown,
    Script.search_button Script.sample_widgets
      (fun _ _ _ => Parsed (Script.id_list (repeat (Samples.leaf "Id" "7") 21)))
      (fun n _ => Raised (if Nat.eqb n 1 then "timeout" else "parse error"))
    = Script.NoResults
        (length (findall (Script.id_list (repeat (Samples.leaf "Id" "7") 21))
                         "Id"))
        shown
    /\ map fst shown
       = seq 1 (Script.total_batches
                  (length (findall
                             (Script.id_list (repeat (Samples.leaf "Id" "7") 21))
                             "Id"))).
Proof.
  apply (@search_button_all_retrievals_fail Script.sample_widgets
           (fun _ _ _ =>
              Parsed (Script.id_list (repeat (Samples.leaf "Id" "7") 21)))
           (fun n _ => Raised (if Nat.eqb n 1 then "timeout" else "parse error"))
           (Script.id_list (repeat (Samples.leaf "Id" "7") 21)));
    try reflexivity.
  - discriminate.
  - vm_compute. repeat (constructor; [discriminate|]). constructor.
Defined.

Lemma search_button_metrics_witness :
  1 = length [mk_row "Food reward mechanisms" "Jane Doe" "jane.doe@harvard.edu"]
  /\ 1 <= 1.
Proof.
  destruct (@search_button_metrics Script.sample_widgets
              (fun _ _ _ => Parsed (Script.id_list [Samples.leaf "Id" "101"]))
              (fun _ _ => Parsed Samples.scenario1)
              1 []
              [mk_row "Food reward mechanisms" "Jane Doe"
                 "jane.doe@harvard.edu"]
              1 0 1 eq_refl)
    as (Ht & Hp & _).
  split; [exact Ht | exact Hp].
Defined.

(** ** E-mails and articles *)

Lemma extract_emails_NoDup (emails : pyset) (text : option str) :
  NoDup emails -> NoDup (extract_emails emails text).
Proof.
  intros H. unfold extract_emails. destruct text as [t|]; [|assumption].
  destruct (truthy t); [now apply update_NoDup | assumption].
Qed.

Lemma collect_emails_NoDup (affiliations : list element) :
  NoDup (collect_emails affiliations).
Proof.
  unfold collect_emails.
  enough (G : forall acc, NoDup acc ->
                NoDup (fold_left
                         (fun article_emails aff =>
                            extract_emails article_emails (text aff))
                         affiliations acc)).
  { apply G. constructor. }
  induction affiliations as [|a affs IH]; intros acc H; cbn [fold_left].
  - assumption.
  - now apply IH, extract_emails_NoDup.
Qed.

Lemma author_emails_NoDup (article_emails : pyset) (author : element) :
  NoDup article_emails -> NoDup (author_emails article_emails author).
Proof.
  intros H. unfold author_emails. destruct (negb _ && _); [assumption|].
  unfold own_emails. destruct (find author "Affiliation") as [aff|].
  - apply extract_emails_NoDup. constructor.
  - constructor.
Qed.

(** X24: within one article an author never yields two rows with the same
    e-mail: the e-mails of an author are kept in a set. *)
Theorem author_rows_have_distinct_emails :
  forall (f : filters) (title : str) (affiliations : list element)
         (author : element),
    NoDup (map email
             (author_step f title (collect_emails affiliations) [] author)).
Proof.
  intros f title affiliations author. unfold author_step.
  repeat match goal with
         | |- context [if ?b then _ else _] => destruct b
         end;
    try (cbn; constructor; [intros [] | constructor]); try constructor.
  all: rewrite email_loop_spec; cbn [app]; rewrite map_map; cbn [email];
    rewrite map_id; apply NoDup_filter, author_emails_NoDup,
    collect_emails_NoDup.
Qed.

(** X25: the rows of an article carry its title (or ["No title"]) and only
    e-mails found in the affiliation texts of that same article: no e-mail
    passes from one article to another. *)
Theorem article_rows_stay_within_the_article :
  forall (f : filters) (article : element),
    Forall (fun r =>
              title r = text_or (find article "ArticleTitle") "No title"
              /\ (email r = ("No email found" : str)
                  \/ exists aff t,
                       In aff (findall article "Affiliation")
                       /\ text aff = Some t
                       /\ In (email r) (email_matches t)))
           (article_step f [] article).
Proof.
  intros f article. apply Forall_forall. intros r Hr.
  apply article_step_origin in Hr as (_ & author & Hauthor & Hr).
  apply author_step_origin in Hr as (Ht & _ & _ & He).
  split; [exact Ht|].
  destruct He as [[He _] | [He _]]; [now left | right].
  unfold author_emails in He. destruct (negb _ && _).
  - apply collect_emails_In in He as (aff & t & Haff & Htext & He).
    now exists aff, t.
  - apply own_emails_In in He as (aff & t & Hfind & Htext & He).
    exists aff, t. repeat split; try assumption.
    eapply find_below; eassumption.
Qed.
